(** * go-syncmap: a shallow embedding of [SyncMap] and its locked view

    The development follows the Go files of the package:

    - [syncmap.go]: the [SyncMap] struct (an exported [sync.RWMutex] field
      [Mu] and an exported map field [Data]) with its self-locking methods;
    - the locked view: the [LockedMap] interface and its only, unexported
      implementation [lockedMap], whose methods touch [m.Data] without
      taking the lock;
    - the helpers of the tests, [mapsEqual] and [slicesEqual].

    A Go map value is a reference to a map object, so the model keeps a heap
    of map objects and [Data] holds a reference into it; [make] allocates a
    fresh object.  A method is a computation over the world (the struct and
    the heap) that returns, panics, or never returns (a goroutine blocked on
    the mutex for ever, or a fatal runtime error).  One goroutine is
    modelled: the mutex is part of the state, so that the effect of holding
    it across a callback, and of releasing it in a deferred call, is
    explicit.

    The constraint [comparable] on [K] admits the floating-point types, so
    a key need not equal itself.  The class [GoComparable] says which keys
    do, and a map object is modelled as Go has it: an assignment under a
    key that does not equal itself (a NaN) adds an entry that no lookup
    finds and no [delete] removes, and that [len] and a [range] loop still
    see.

    What the model leaves out:

    - a key of interface type whose dynamic type cannot be hashed, with
      which indexing a map is a run-time panic;
    - the order of a [range] loop is an argument of the looping methods,
      any enumeration of the entries;
    - the functions given to [Map] and [Filter] are pure and total, and the
      visitor given to [Range] only changes the state it captures;
    - a callback of [DoLocked] is, where statements quantify over callbacks,
      a finite tree of calls on the view that ends in a return or a panic. *)

From Stdlib Require Import ZArith.
From stdpp Require Import base option list gmap fin_maps fin_sets strings.

Local Open Scope Z_scope.

(** ** Go runtime: values, panics, the heap of map objects *)

(** The zero value of a Go type ([var v V]). *)
Class GoZero (V : Type) := zero_value : V.

(** The values of Go's [any] that callbacks return and pass to [panic]. *)
Class GoAny := any : Type.

Definition loc := positive.

(** A value of type [map[K]V]: [nil], or a reference to a map object. *)
Inductive mapref : Type :=
| nil_map
| ref (l : loc).

(** [sync.RWMutex], as documented by the standard library: at most one
    writer, or any number of readers. *)
Record RWMutex : Type := mkRWMutex {
  writer : bool;
  readers : nat
}.

(** The zero value [sync.RWMutex{}]: unlocked. *)
Definition unlocked : RWMutex := mkRWMutex false 0.
Definition write_locked : RWMutex := mkRWMutex true 0.

(** [type SyncMap[K comparable, V any] struct { Mu sync.RWMutex; Data map[K]V }] *)
Record SyncMap : Type := mkSyncMap {
  Mu : RWMutex;
  Data : mapref
}.

(** A [*SyncMap[K, V]].  The world holds one store, [this]. *)
Inductive SyncMap_ptr : Type :=
| this_ptr.

Inductive runtime_error : Type :=
| assignment_to_entry_in_nil_map.

Inductive panic_value `{GoAny} : Type :=
| RuntimeError (e : runtime_error)
| Value (v : any).

(** Ways in which a call never returns to its caller. *)
Inductive halt : Type :=
| blocked_on_lock          (* Lock or RLock waits for ever *)
| unlock_of_unlocked_mutex (* fatal error: sync: unlock of unlocked mutex *).

(** Go's [==] on the keys.  Two keys that [==] holds of are one element of
    [K] (as [+0] and [-0] are one key of a [map[float64]V]); what is left of
    [==] is whether a key equals itself.  A floating-point NaN does not, nor
    does a struct or an array that holds one. *)
Class GoComparable (K : Type) := self_equal : K → bool.

(** ** Go maps *)

Section gomaps.
Context {K : Type} `{Countable K} `{!GoComparable K} {V : Type}.

(** A map object.  Under a key that equals itself it holds at most one
    entry, and [reachable] is the finite map of these entries.  A key that
    does not equal itself is never found again: each assignment under it
    adds an entry that only [len] and [range] see, and [hidden] lists these
    entries. *)
Record gomap : Type := mkGomap {
  reachable : gmap K V;
  hidden : list (K * V)
}.

(** [map[K]V{}] *)
#[global] Instance gomap_empty : Empty gomap := mkGomap ∅ [].

(** [m[k]], the comma-ok form: the hash of [k] selects the candidates and
    [==] picks the entry, so a key that does not equal itself finds
    nothing. *)
#[global] Instance gomap_lookup : Lookup K V gomap := λ k m,
  if self_equal k then reachable m !! k else None.

(** [m[k] = v]: overwrite the entry whose key [==] [k], or else add one. *)
#[global] Instance gomap_insert : Insert K V gomap := λ k v m,
  if self_equal k
  then mkGomap (<[k := v]> (reachable m)) (hidden m)
  else mkGomap (reachable m) (hidden m ++ [(k, v)]).

(** [delete(m, k)]: remove the entry whose key [==] [k], if there is one. *)
#[global] Instance gomap_delete : Delete K gomap := λ k m,
  if self_equal k
  then mkGomap (delete k (reachable m)) (hidden m)
  else m.

(** All the entries, in some order. *)
Definition entries (m : gomap) : list (K * V) :=
  map_to_list (reachable m) ++ hidden m.

(** [len(m)] *)
#[global] Instance gomap_size : Size gomap := λ m, length (entries m).

(** The keys that a lookup finds. *)
#[global] Instance gomap_dom : Dom gomap (gset K) := λ m,
  filter (λ k, self_equal k = true) (dom (reachable m)).

(** The invariant of the representation: the keys of [reachable] equal
    themselves, those of [hidden] do not. *)
Definition well_formed (m : gomap) : Prop :=
  (∀ k, is_Some (reachable m !! k) → self_equal k = true) ∧
  Forall (λ kv, self_equal kv.1 = false) (hidden m).

(** A map without hidden entries, given by its finite map. *)
Definition plain (d : gmap K V) : gomap := mkGomap d [].

(** The invariant, computed. *)
Definition well_formedb (m : gomap) : bool :=
  forallb (λ kv, self_equal kv.1) (map_to_list (reachable m)) &&
  forallb (λ kv, negb (self_equal kv.1)) (hidden m).

(** A list of entries in which no key that equals itself occurs twice. *)
Definition once (l : list (K * V)) : Prop :=
  NoDup (filter (λ k, self_equal k = true) l.*1).
End gomaps.

Arguments gomap K {_ _} V.

Section runtime.
Context {K : Type} `{Countable K} `{!GoComparable K} {V : Type} `{!GoZero V} `{!GoAny}.

(** The receiver [m *SyncMap[K, V]] points at [this]; [heap] holds the map
    objects. *)
Record world : Type := mkWorld {
  this : SyncMap;
  heap : gmap loc (gomap K V)
}.

Inductive outcome (A : Type) : Type :=
| Returned (a : A) (w : world)
| Panicked (p : panic_value) (w : world)
| Halted (why : halt).

Definition M (A : Type) : Type := world → outcome A.

Definition ret {A} (a : A) : M A := λ w, Returned A a w.

Definition bind {A B} (c : M A) (k : A → M B) : M B := λ w,
  match c w with
  | Returned _ a w' => k a w'
  | Panicked _ p w' => Panicked B p w'
  | Halted _ why => Halted B why
  end.

Definition panic {A} (p : panic_value) : M A := λ w, Panicked A p w.

(** [defer d; body]: [d] runs when [body] returns and also when it panics;
    the panic then goes on to the caller. *)
Definition defer {A} (d : M unit) (body : M A) : M A := λ w,
  match body w with
  | Returned _ a w' =>
      match d w' with
      | Returned _ _ w'' => Returned A a w''
      | Panicked _ p w'' => Panicked A p w''
      | Halted _ why => Halted A why
      end
  | Panicked _ p w' =>
      match d w' with
      | Returned _ _ w'' => Panicked A p w''
      | Panicked _ p' w'' => Panicked A p' w''
      | Halted _ why => Halted A why
      end
  | Halted _ why => Halted A why
  end.

(** [m.Data], read through the receiver. *)
Definition get_Data : M mapref := λ w, Returned _ (Data (this w)) w.

Definition set_Mu (mu : RWMutex) : M unit := λ w,
  Returned _ tt (mkWorld (mkSyncMap mu (Data (this w))) (heap w)).

(** [m.Data = r] *)
Definition set_Data (r : mapref) : M unit := λ w,
  Returned _ tt (mkWorld (mkSyncMap (Mu (this w)) r) (heap w)).

(** The entries of the map object behind a reference; a nil map has none. *)
Definition contents (h : gmap loc (gomap K V)) (r : mapref) : gomap K V :=
  match r with
  | nil_map => ∅
  | ref l => default ∅ (h !! l)
  end.

(** [make(map[K]V)] and [make(map[K]V, n)]: a new, empty map object.  The
    size hint only sizes the first allocation. *)
Definition make_map (hint : Z) : M mapref := λ w,
  let l := fresh (dom (heap w)) in
  Returned _ (ref l) (mkWorld (this w) (<[l := ∅]> (heap w))).

(** [v, ok := r[k]] *)
Definition map_index (r : mapref) (k : K) : M (V * bool) := λ w,
  match contents (heap w) r !! k with
  | Some v => Returned _ (v, true) w
  | None => Returned _ (zero_value, false) w
  end.

(** [r[k] = v]; on a nil map this is a run-time panic. *)
Definition map_assign (r : mapref) (k : K) (v : V) : M unit := λ w,
  match r with
  | nil_map => Panicked _ (RuntimeError assignment_to_entry_in_nil_map) w
  | ref l =>
      Returned _ tt (mkWorld (this w) (<[l := <[k := v]> (contents (heap w) r)]> (heap w)))
  end.

(** [delete(r, k)]; a no-op on a nil map and on an absent key. *)
Definition map_delete (r : mapref) (k : K) : M unit := λ w,
  match r with
  | nil_map => Returned _ tt w
  | ref l =>
      Returned _ tt (mkWorld (this w) (<[l := delete k (contents (heap w) r)]> (heap w)))
  end.

(** [len(r)] *)
Definition map_len (r : mapref) : M Z := λ w,
  Returned _ (Z.of_nat (size (contents (heap w) r))) w.

(** *** sync.RWMutex *)

Definition Lock : M unit := λ w,
  let mu := Mu (this w) in
  if writer mu || negb (Nat.eqb (readers mu) 0)
  then Halted _ blocked_on_lock
  else set_Mu (mkRWMutex true (readers mu)) w.

Definition Unlock : M unit := λ w,
  let mu := Mu (this w) in
  if writer mu
  then set_Mu (mkRWMutex false (readers mu)) w
  else Halted _ unlock_of_unlocked_mutex.

Definition RLock : M unit := λ w,
  let mu := Mu (this w) in
  if writer mu
  then Halted _ blocked_on_lock
  else set_Mu (mkRWMutex false (S (readers mu))) w.

Definition RUnlock : M unit := λ w,
  let mu := Mu (this w) in
  match readers mu with
  | O => Halted _ unlock_of_unlocked_mutex
  | S n => set_Mu (mkRWMutex (writer mu) n) w
  end.

(** *** for k, v := range r *)

(** The order in which one [range] statement yields the entries of a map
    is chosen by the runtime and may differ from one loop to the next:
    every looping method takes the order of its loop as an argument. *)
Record iteration : Type := mkIteration {
  enum : gomap K V → list (K * V);
  enum_perm : ∀ m, enum m ≡ₚ entries m
}.

(** The loop threads the variables the body assigns to ([a]); the body
    returns [false] to [break]. *)
Fixpoint range_loop {A} (entries : list (K * V))
    (body : K → V → A → M (A * bool)) (a : A) : M A :=
  match entries with
  | [] => ret a
  | (k, v) :: rest =>
      bind (body k v a) (λ '(a', continue),
        if continue then range_loop rest body a' else ret a')
  end.

Definition range_map {A} (it : iteration) (r : mapref)
    (body : K → V → A → M (A * bool)) (a : A) : M A := λ w,
  range_loop (enum it (contents (heap w) r)) body a w.

End runtime.

Arguments world K {_ _} V.
Arguments outcome K {_ _} V {_} A.
Arguments M K {_ _} V {_} A.
Arguments iteration K {_ _} V.
Arguments Returned {K _ _ V _ A} a w.
Arguments Panicked {K _ _ V _ A} p w.
Arguments Halted {K _ _ V _ A} why.

Declare Scope go_scope.
Delimit Scope go_scope with go.
Notation "'let*' x ':=' c 'in' k" := (bind c (λ x, k))
  (at level 10, x pattern, c at level 100, k at level 200) : go_scope.
Notation "c ';;' k" := (bind c (λ _, k))
  (at level 100, k at level 200, right associativity) : go_scope.
Local Open Scope go_scope.

(** ** The locked view *)

(** A visitor, transform or predicate is a Go closure.  The transform and
    the predicate are taken pure; the visitor of [Range] carries the state
    it captures (a counter, the slices it appends to) through its calls and
    says whether to go on. *)
Definition visitor (K V A : Type) : Type := K → V → A → A * bool.

(** [type LockedMap[K comparable, V any] interface { ... }] *)
Module LockedMap.
Section interface.
Context {K : Type} `{Countable K} `{!GoComparable K} {V : Type} `{!GoZero V} `{!GoAny}.

Record t : Type := mk {
  Load : K → M K V (V * bool);
  LoadOrStore : K → V → M K V (V * bool);
  Store : K → V → M K V unit;
  LoadAndDelete : K → M K V (V * bool);
  Remove : K → M K V bool;
  Purge : M K V unit;
  Range : ∀ A : Type, iteration K V → visitor K V A → A → M K V A;
  Filter : iteration K V → (K → V → bool) → M K V mapref;
  Map : iteration K V → (K → V → V) → M K V mapref;
  Len : M K V Z;
  (* method to make sure SyncMap does not fit the LockedMap interface *)
  syncMap : M K V SyncMap_ptr
}.
End interface.
Arguments t K {_ _} V {_}.
End LockedMap.

Abbreviation LockedMap := LockedMap.t.

(** [type lockedMap[K comparable, V any] struct { m *SyncMap[K, V] }]: the
    methods reach the map through [lm.m.Data] and never touch [lm.m.Mu]. *)
Module lockedMap.
Section methods.
Context {K : Type} `{Countable K} `{!GoComparable K} {V : Type} `{!GoZero V} `{!GoAny}.

Definition Len : M K V Z :=
  let* m_Data := get_Data in
  map_len m_Data.

Definition Load (key : K) : M K V (V * bool) :=
  let* m_Data := get_Data in
  let* (v, ok) := map_index m_Data key in
  ret (v, ok).

Definition Store (key : K) (value : V) : M K V unit :=
  let* m_Data := get_Data in
  map_assign m_Data key value.

Definition LoadAndDelete (key : K) : M K V (V * bool) :=
  let* m_Data := get_Data in
  let* (v, ok) := map_index m_Data key in
  (if ok then map_delete m_Data key else ret tt) ;;
  ret (v, ok).

Definition Range {A} (it : iteration K V) (f : visitor K V A) (a : A) : M K V A :=
  let* m_Data := get_Data in
  range_map it m_Data (λ k v a, ret (f k v a)) a.

Definition Purge : M K V unit :=
  let* fresh_map := make_map 0 in
  set_Data fresh_map.

Definition Remove (k : K) : M K V bool :=
  let* m_Data := get_Data in
  let* (_, ok) := map_index m_Data k in
  if negb ok then ret false
  else
    map_delete m_Data k ;;
    ret true.

Definition LoadOrStore (key : K) (value : V) : M K V (V * bool) :=
  let* m_Data := get_Data in
  let* (v, ok) := map_index m_Data key in
  if ok then ret (v, true)
  else
    map_assign m_Data key value ;;
    ret (value, false).

Definition Filter (it : iteration K V) (predicateFn : K → V → bool) : M K V mapref :=
  let* data := make_map 0 in
  let* m_Data := get_Data in
  range_map it m_Data (λ k v _,
    if predicateFn k v
    then map_assign data k v ;; ret (tt, true)
    else ret (tt, true)) tt ;;
  ret data.

Definition Map (it : iteration K V) (mapFn : K → V → V) : M K V mapref :=
  let* m_Data := get_Data in
  let* n := map_len m_Data in
  let* data := make_map n in
  range_map it m_Data (λ k v _,
    map_assign data k (mapFn k v) ;; ret (tt, true)) tt ;;
  ret data.

Definition syncMap : M K V SyncMap_ptr := ret this_ptr.

(** [&lockedMap[K, V]{m: m}] seen through the interface. *)
Definition view : LockedMap K V :=
  LockedMap.mk Load LoadOrStore Store LoadAndDelete Remove Purge
    (@Range) Filter Map Len syncMap.
End methods.
End lockedMap.

(** ** The store: syncmap.go *)

Module SyncMap.
Section methods.
Context {K : Type} `{Countable K} `{!GoComparable K} {V : Type} `{!GoZero V} `{!GoAny}.

(** [New[K, V](size)]: the struct literal with a zero mutex and a map made
    with the size hint, allocated next to the map objects of [h]. *)
Definition New (size : Z) (h : gmap loc (gomap K V)) : world K V :=
  let l := fresh (dom h) in
  mkWorld (mkSyncMap unlocked (ref l)) (<[l := ∅]> h).

Definition Store (k : K) (v : V) : M K V unit :=
  Lock ;;
  defer Unlock (
    let* m_Data := get_Data in
    map_assign m_Data k v).

Definition Load (k : K) : M K V (V * bool) :=
  RLock ;;
  defer RUnlock (
    let* m_Data := get_Data in
    let* (v, ok) := map_index m_Data k in
    ret (v, ok)).

Definition Remove (k : K) : M K V bool :=
  Lock ;;
  defer Unlock (
    let* m_Data := get_Data in
    let* (_, ok) := map_index m_Data k in
    if negb ok then ret false
    else
      map_delete m_Data k ;;
      ret true).

Definition Map (it : iteration K V) (mapFn : K → V → V) : M K V mapref :=
  RLock ;;
  defer RUnlock (
    let* m_Data := get_Data in
    let* n := map_len m_Data in
    let* data := make_map n in
    range_map it m_Data (λ k v _,
      map_assign data k (mapFn k v) ;; ret (tt, true)) tt ;;
    ret data).

Definition Filter (it : iteration K V) (predicateFn : K → V → bool) : M K V mapref :=
  let* data := make_map 0 in
  RLock ;;
  defer RUnlock (
    let* m_Data := get_Data in
    range_map it m_Data (λ k v _,
      if predicateFn k v
      then map_assign data k v ;; ret (tt, true)
      else ret (tt, true)) tt ;;
    ret data).

Definition Purge : M K V unit :=
  Lock ;;
  defer Unlock (
    let* fresh_map := make_map 0 in
    set_Data fresh_map).

Definition Len : M K V Z :=
  RLock ;;
  defer RUnlock (
    let* m_Data := get_Data in
    map_len m_Data).

Definition DoLocked (f : LockedMap K V → M K V unit) : M K V unit :=
  Lock ;;
  defer Unlock (f lockedMap.view).

Definition DoLockedWithResult (f : LockedMap K V → M K V any) : M K V any :=
  Lock ;;
  defer Unlock (f lockedMap.view).

Definition LoadOrStore (key : K) (value : V) : M K V (V * bool) :=
  Lock ;;
  defer Unlock (
    let* m_Data := get_Data in
    let* (v, ok) := map_index m_Data key in
    if ok then ret (v, true)
    else
      map_assign m_Data key value ;;
      ret (value, false)).

Definition LoadAndDelete (key : K) : M K V (V * bool) :=
  Lock ;;
  defer Unlock (
    let* m_Data := get_Data in
    let* (v, ok) := map_index m_Data key in
    (if ok then map_delete m_Data key else ret tt) ;;
    ret (v, ok)).

Definition Range {A} (it : iteration K V) (f : visitor K V A) (a : A) : M K V A :=
  RLock ;;
  defer RUnlock (
    let* m_Data := get_Data in
    range_map it m_Data (λ k v a, ret (f k v a)) a).
End methods.
End SyncMap.

(** ** Calls and callbacks *)

Section callbacks.
Context {K : Type} `{Countable K} `{!GoComparable K} {V : Type} `{!GoZero V} `{!GoAny}.

(** The ten operations that the store and the view have in common, each
    with its arguments; the index is the Go result type. *)
Inductive method : Type → Type :=
| mLoad (key : K) : method (V * bool)
| mLoadOrStore (key : K) (value : V) : method (V * bool)
| mStore (key : K) (value : V) : method unit
| mLoadAndDelete (key : K) : method (V * bool)
| mRemove (k : K) : method bool
| mPurge : method unit
| mRange {A : Type} (it : iteration K V) (f : visitor K V A) (a : A) : method A
| mFilter (it : iteration K V) (predicateFn : K → V → bool) : method mapref
| mMap (it : iteration K V) (mapFn : K → V → V) : method mapref
| mLen : method Z.

(** Dynamic dispatch through the interface: [lm.Load(key)], ... *)
Definition invoke (lm : LockedMap K V) {T} (c : method T) : M K V T :=
  match c with
  | mLoad key => LockedMap.Load lm key
  | mLoadOrStore key value => LockedMap.LoadOrStore lm key value
  | mStore key value => LockedMap.Store lm key value
  | mLoadAndDelete key => LockedMap.LoadAndDelete lm key
  | mRemove k => LockedMap.Remove lm k
  | mPurge => LockedMap.Purge lm
  | mRange it f a => LockedMap.Range lm _ it f a
  | mFilter it predicateFn => LockedMap.Filter lm it predicateFn
  | mMap it mapFn => LockedMap.Map lm it mapFn
  | mLen => LockedMap.Len lm
  end.

(** The public method of the same name: [sm.Load(key)], ... *)
Definition public {T} (c : method T) : M K V T :=
  match c with
  | mLoad key => SyncMap.Load key
  | mLoadOrStore key value => SyncMap.LoadOrStore key value
  | mStore key value => SyncMap.Store key value
  | mLoadAndDelete key => SyncMap.LoadAndDelete key
  | mRemove k => SyncMap.Remove k
  | mPurge => SyncMap.Purge
  | mRange it f a => SyncMap.Range it f a
  | mFilter it predicateFn => SyncMap.Filter it predicateFn
  | mMap it mapFn => SyncMap.Map it mapFn
  | mLen => SyncMap.Len
  end.

(** The body of a [func(m LockedMap[K, V]) R] that acts on the store only
    through the view it is given: it returns, panics, or calls a method
    of the view and goes on with the result. *)
Inductive callback (R : Type) : Type :=
| Return (r : R)
| PanicWith (v : any)
| Call {T : Type} (c : method T) (next : T → callback R).

Fixpoint run {R} (f : callback R) (lm : LockedMap K V) : M K V R :=
  match f with
  | Return _ r => ret r
  | PanicWith _ v => panic (Value v)
  | Call _ c next => let* t := invoke lm c in run (next t) lm
  end.

(** A sequence of calls of public methods, results dropped. *)
Inductive op : Type :=
| Op {T : Type} (c : method T).

Fixpoint history (ops : list op) : M K V unit :=
  match ops with
  | [] => ret tt
  | Op c :: rest => public c ;; history rest
  end.

(** Whether a call can add key [k] to the map, and whether it takes it
    out. *)
Definition stores (k : K) (o : op) : bool :=
  match o with
  | Op (mStore key _) | Op (mLoadOrStore key _) => bool_decide (key = k)
  | _ => false
  end.

Definition removes (k : K) (o : op) : bool :=
  match o with
  | Op (mRemove key) | Op (mLoadAndDelete key) => bool_decide (key = k)
  | Op mPurge => true
  | _ => false
  end.
End callbacks.

Arguments method K {_ _} V T.
Arguments callback K {_ _} V {_} R.
Arguments op K {_ _} V.
Arguments Return {K _ _ V _ R} r.
Arguments PanicWith {K _ _ V _ R} v.
Arguments Call {K _ _ V _ R T} c next.

(** ** Vocabulary of the statements *)

Section vocabulary.
Context {K : Type} `{Countable K} `{!GoComparable K} {V : Type} `{!GoZero V} `{!GoAny}.

(** The mapping of the store: the entries of the object [Data] refers to. *)
Definition current (w : world K V) : gomap K V :=
  contents (heap w) (Data (this w)).

(** The same world with another state of the mutex. *)
Definition with_Mu (mu : RWMutex) (w : world K V) : world K V :=
  mkWorld (mkSyncMap mu (Data (this w))) (heap w).

Definition on_world {A} (g : world K V → world K V) (o : outcome K V A)
    : outcome K V A :=
  match o with
  | Returned a w => Returned a (g w)
  | Panicked p w => Panicked p (g w)
  | Halted why => Halted why
  end.

(** A correctly constructed store, as after [New]: [Data] refers to a map
    object of the heap (a well-formed one, as every map object that Go
    builds is).  It is ready when, besides, no goroutine holds its mutex. *)
Definition constructed (w : world K V) : Prop :=
  match Data (this w) with
  | nil_map => False
  | ref l => ∃ m, heap w !! l = Some m ∧ well_formed m
  end.

Definition ready (w : world K V) : Prop :=
  Mu (this w) = unlocked ∧ constructed w.

(** A computation that neither reads nor writes the mutex. *)
Definition mu_blind {A} (c : M K V A) : Prop :=
  ∀ mu w, c (with_Mu mu w) = on_world (with_Mu mu) (c w).

(** A visitor wrapped so that it also records each call: the entry it was
    given and the signal it gave back. *)
Definition logged {A} (f : visitor K V A) : visitor K V (list (K * V * bool) * A) :=
  λ k v '(log, a),
    let '(a', continue) := f k v a in
    ((log ++ [(k, v, continue)], a'), continue).

(** The pair that a lookup yields: the value and [true], or the zero value
    and [false]. *)
Definition found (o : option V) : V * bool :=
  match o with
  | Some v => (v, true)
  | None => (zero_value, false)
  end.

(** The world in which the object behind [Data] holds [d]. *)
Definition set_current (d : gomap K V) (w : world K V) : world K V :=
  match Data (this w) with
  | nil_map => w
  | ref l => mkWorld (this w) (<[l := d]> (heap w))
  end.

(** The world after [make] allocated an object holding [d]. *)
Definition alloc (d : gomap K V) (w : world K V) : world K V :=
  mkWorld (this w) (<[fresh (dom (heap w)) := d]> (heap w)).

(** What the loop of [Range] computes: the visitor's state after the
    calls, up to the first stop signal. *)
Fixpoint visit {A} (entries : list (K * V)) (f : visitor K V A) (a : A) : A :=
  match entries with
  | [] => a
  | (k, v) :: rest =>
      let '(a', continue) := f k v a in
      if continue then visit rest f a' else a'
  end.

(** What the loops of [Map] and [Filter] leave in their result when they
    assign [e k v] (if any) at [k] for each entry. *)
Definition gather (e : K → V → option V) (entries : list (K * V))
    (acc : gomap K V) : gomap K V :=
  foldl (λ acc '(k, v),
           match e k v with
           | Some v' => <[k := v']> acc
           | None => acc
           end) acc entries.

Definition keep (predicateFn : K → V → bool) : K → V → option V :=
  λ k v, if predicateFn k v then Some v else None.

(** The calls that the loop of [Range] makes, in order, each with the
    signal the visitor gave back. *)
Fixpoint trace {A} (entries : list (K * V)) (f : visitor K V A) (a : A)
    : list (K * V * bool) :=
  match entries with
  | [] => []
  | (k, v) :: rest =>
      let '(a', continue) := f k v a in
      (k, v, continue) :: (if continue then trace rest f a' else [])
  end.

(** What a call does to the mapping. *)
Definition effect {T} (c : method K V T) (d : gomap K V) : gomap K V :=
  match c with
  | mStore key value => <[key := value]> d
  | mLoadOrStore key value =>
      match d !! key with
      | Some _ => d
      | None => <[key := value]> d
      end
  | mLoadAndDelete key | mRemove key => delete key d
  | mPurge => ∅
  | _ => d
  end.

(** The call came back to its caller, by a return or by a panic. *)
Definition completes {A} (o : outcome K V A) : Prop :=
  match o with
  | Halted _ => False
  | _ => True
  end.

Definition never_halts {A} (c : M K V A) : Prop := ∀ w, completes (c w).

End vocabulary.

(** ** A store of integers under string keys *)

(** Enough of Go's [any] for the callbacks of the tests: they return
    [m.Len()], and a failing one would panic with a message. *)
Inductive dyn : Type :=
| int_ (n : Z)
| string_ (s : string).

#[global] Instance int_zero : GoZero Z := 0.
#[global] Instance dyn_any : GoAny := dyn.

(** Every string equals itself. *)
#[global] Instance string_comparable : GoComparable string := λ _, true.

(** The order of [entries]; any permutation of it would do. *)
Definition listed : iteration string Z :=
  mkIteration entries (λ m, reflexivity (entries m)).

(** Two visitors: one adds up all the values, the other stops at its first
    call. *)
Definition sum_all : visitor string Z Z := λ _ v n, (n + v, true).
Definition first_only : visitor string Z Z := λ _ v n, (n + v, false).

(** [sm := New[string, int](10)] *)
Definition fresh_store : world string Z := SyncMap.New 10 ∅.

(** The same after [sm.Store("key1", 1)] and [sm.Store("key2", 2)]. *)
Definition two_keys : world string Z :=
  mkWorld (mkSyncMap unlocked (ref 1%positive))
          {[ 1%positive := plain {[ "key1" := 1; "key2" := 2 ]} ]}.

(** ** A store under keys of which one does not equal itself *)

(** The keys of a [map[float64]V] as far as [==] goes: the numbers, here
    given by integers, and NaN. *)
Inductive float_key : Type :=
| finite (n : Z)
| NaN.

#[global] Instance float_key_eq_dec : EqDecision float_key.
Proof. solve_decision. Defined.

#[global] Instance float_key_countable : Countable float_key :=
  inj_countable'
    (λ k, match k with finite n => Some n | NaN => None end)
    (λ o, match o with Some n => finite n | None => NaN end)
    (λ k, match k with finite _ => eq_refl | NaN => eq_refl end).

#[global] Instance float_key_comparable : GoComparable float_key := λ k,
  match k with
  | finite _ => true
  | NaN => false
  end.

(** [New[float64, int](0)] *)
Definition float_store : world float_key Z := SyncMap.New 0 ∅.

Definition float_listed : iteration float_key Z :=
  mkIteration entries (λ m, reflexivity (entries m)).

(** ** Further vocabulary: lock modes, sequences of calls *)

Section composition.
Context {K : Type} `{Countable K} `{!GoComparable K} {V : Type} `{!GoZero V} `{!GoAny}.

(** The methods that take the lock in shared mode ([RLock]); the others
    take it in exclusive mode ([Lock]). *)
Definition reads {T} (c : method K V T) : bool :=
  match c with
  | mLoad _ | mLen | mRange _ _ _ | mFilter _ _ | mMap _ _ => true
  | _ => false
  end.

(** [func(m) { f(m); g(m) }]: the calls of [f], then those of [g], unless
    [f] panics. *)
Fixpoint then_ {R} (f : callback K V unit) (g : callback K V R) : callback K V R :=
  match f with
  | Return _ => g
  | PanicWith v => PanicWith v
  | Call c next => Call c (λ t, then_ (next t) g)
  end.

Definition effect_of (o : op K V) (d : gomap K V) : gomap K V :=
  match o with
  | Op c => effect c d
  end.

(** A visitor that counts its calls and never stops. *)
Definition count_calls : visitor K V Z := λ _ _ n, (n + 1, true).

(** What the caller sees of the result of a call: the result itself, or,
    of a map that [Filter] or [Map] returns, its entries (Go code cannot
    compare two maps for identity). *)
Definition observation {T} (c : method K V T) : Type :=
  match c with
  | mFilter _ _ | mMap _ _ => gomap K V
  | _ => T
  end.

Definition seen {T} (c : method K V T) : T → world K V → observation c :=
  match c as c0 in method _ _ T0 return T0 → world K V → observation c0 with
  | mLoad _ => λ t _, t
  | mLoadOrStore _ _ => λ t _, t
  | mStore _ _ => λ t _, t
  | mLoadAndDelete _ => λ t _, t
  | mRemove _ => λ t _, t
  | mPurge => λ t _, t
  | mRange _ _ _ => λ t _, t
  | mFilter _ _ => λ t w, contents (heap w) t
  | mMap _ _ => λ t w, contents (heap w) t
  | mLen => λ t _, t
  end.

(** Two worlds that no sequence of public calls tells apart: the calls
    return on both, and the last one is seen to give the same answer. *)
Definition indistinguishable (w1 w2 : world K V) : Prop :=
  ∀ (ops : list (op K V)) (T : Type) (c : method K V T),
  ∃ u1 u2 t1 t2 u1' u2',
    history ops w1 = Returned tt u1 ∧
    history ops w2 = Returned tt u2 ∧
    public c u1 = Returned t1 u1' ∧
    public c u2 = Returned t2 u2' ∧
    seen c t1 u1' = seen c t2 u2'.

(** Two ready stores with the same mapping. *)
Definition alike (w1 w2 : world K V) : Prop :=
  ready w1 ∧ ready w2 ∧ current w1 = current w2.
End composition.

(** ** The helpers of the tests *)

Section test_helpers.
Context {K : Type} `{Countable K} {V : Type} `{!GoZero V} `{EqDecision V}.

(** The loop of [mapsEqual]: [return false] at the first entry of [m1]
    that [m2] does not hold with the same value; [return true] after the
    loop. *)
Fixpoint mapsEqual_loop (entries : list (K * V)) (m2 : gmap K V) : bool :=
  match entries with
  | [] => true
  | (k, v1) :: rest =>
      let '(v2, ok) := found (m2 !! k) in
      if negb ok || negb (bool_decide (v1 = v2)) then false
      else mapsEqual_loop rest m2
  end.

(** [func mapsEqual[K comparable, V comparable](m1, m2 map[K]V) bool].  The
    function only reads the two maps.  Those of the tests have strings and
    integers for keys and values, which all equal themselves: the maps are
    given by their finite maps. *)
Definition mapsEqual (it : iteration K V) (m1 m2 : gmap K V) : bool :=
  if negb (Z.of_nat (size m1) =? Z.of_nat (size m2)) then false
  else mapsEqual_loop (enum it (plain m1)) m2.
End test_helpers.

Section slices.
Context {T : Type} `{EqDecision T}.

(** The loop of [slicesEqual] over the indices of [s1]; indexing a slice
    out of its range is a run-time panic, here [None]. *)
Fixpoint slicesEqual_loop (indices : list nat) (s1 s2 : list T) : option bool :=
  match indices with
  | [] => Some true
  | i :: rest =>
      match s1 !! i, s2 !! i with
      | Some x, Some y =>
          if negb (bool_decide (x = y)) then Some false
          else slicesEqual_loop rest s1 s2
      | _, _ => None
      end
  end.

(** [func slicesEqual[T comparable](s1, s2 []T) bool] *)
Definition slicesEqual (s1 s2 : list T) : option bool :=
  if negb (Z.of_nat (length s1) =? Z.of_nat (length s2)) then Some false
  else slicesEqual_loop (seq 0 (length s1)) s1 s2.
End slices.

(** The store of the tests while two other goroutines hold the lock in
    shared mode, and the zero value of the struct. *)
Definition two_readers : world string Z :=
  with_Mu (mkRWMutex false 2) two_keys.

Definition zero_SyncMap : world string Z :=
  mkWorld (mkSyncMap unlocked nil_map) ∅.

(** The order of [entries] reversed: another choice of the runtime. *)
Definition listed_backwards : iteration string Z :=
  mkIteration (λ m, reverse (entries m))
              (λ m, reverse_Permutation (entries m)).

(** ** Go maps: lookups, sizes, the invariant *)

Section gomap_facts.
Context {K : Type} `{Countable K} `{!GoComparable K} {V : Type}.
Implicit Types (m : gomap K V) (k : K) (v : V).

Lemma gomap_lookup_unfold m k :
  m !! k = if self_equal k then reachable m !! k else None.
Proof. done. Qed.

Lemma gomap_insert_unfold m k v :
  <[k := v]> m =
  if self_equal k
  then mkGomap (<[k := v]> (reachable m)) (hidden m)
  else mkGomap (reachable m) (hidden m ++ [(k, v)]).
Proof. done. Qed.

Lemma gomap_delete_unfold m k :
  delete k m =
  if self_equal k then mkGomap (delete k (reachable m)) (hidden m) else m.
Proof. done. Qed.

Lemma gomap_size_unfold m : size m = (size (reachable m) + length (hidden m))%nat.
Proof.
  change (size m) with (length (entries m)).
  unfold entries. by rewrite length_app, length_map_to_list.
Qed.

Lemma gomap_lookup_empty k : (∅ : gomap K V) !! k = None.
Proof. rewrite gomap_lookup_unfold. by destruct (self_equal k). Qed.

Lemma gomap_entries_empty : entries (∅ : gomap K V) = [].
Proof. unfold entries. simpl. by rewrite map_to_list_empty. Qed.

Lemma gomap_size_empty : size (∅ : gomap K V) = 0%nat.
Proof. by rewrite gomap_size_unfold. Qed.

(** A key that does not equal itself is never found. *)
Lemma gomap_lookup_unequal m k : self_equal k = false → m !! k = None.
Proof. intros Hk. by rewrite gomap_lookup_unfold, Hk. Qed.

Lemma gomap_lookup_Some m k v : m !! k = Some v → self_equal k = true.
Proof. rewrite gomap_lookup_unfold. by destruct (self_equal k). Qed.

Lemma gomap_lookup_insert_eq m k v :
  self_equal k = true → <[k := v]> m !! k = Some v.
Proof.
  intros Hk. rewrite gomap_lookup_unfold, gomap_insert_unfold, Hk. simpl.
  apply lookup_insert_eq.
Qed.

Lemma gomap_lookup_insert_unequal m k k' v :
  self_equal k = false → <[k := v]> m !! k' = m !! k'.
Proof. intros Hk. by rewrite !gomap_lookup_unfold, gomap_insert_unfold, Hk. Qed.

Lemma gomap_lookup_insert_ne m k k' v : k ≠ k' → <[k := v]> m !! k' = m !! k'.
Proof.
  intros Hne. rewrite !gomap_lookup_unfold, gomap_insert_unfold.
  destruct (self_equal k), (self_equal k'); simpl; try done.
  by apply lookup_insert_ne.
Qed.

Lemma gomap_lookup_delete_eq m k : delete k m !! k = None.
Proof.
  rewrite gomap_lookup_unfold, gomap_delete_unfold.
  destruct (self_equal k); simpl; [apply lookup_delete_eq|done].
Qed.

Lemma gomap_lookup_delete_ne m k k' : k ≠ k' → delete k m !! k' = m !! k'.
Proof.
  intros Hne. rewrite !gomap_lookup_unfold, gomap_delete_unfold.
  destruct (self_equal k), (self_equal k'); simpl; try done.
  by apply lookup_delete_ne.
Qed.

Lemma gomap_lookup_delete_None m k k' : m !! k' = None → delete k m !! k' = None.
Proof.
  intros Hk'. destruct (decide (k = k')) as [->|Hne].
  - apply gomap_lookup_delete_eq.
  - by rewrite gomap_lookup_delete_ne.
Qed.

Lemma gomap_delete_id m k : m !! k = None → delete k m = m.
Proof.
  rewrite gomap_lookup_unfold, gomap_delete_unfold.
  destruct (self_equal k); [|done]. intros Hk.
  rewrite delete_id by done. by destruct m.
Qed.

Lemma gomap_insert_insert_eq m k v1 v2 :
  self_equal k = true → <[k := v2]> (<[k := v1]> m) = <[k := v2]> m.
Proof.
  intros Hk. rewrite !gomap_insert_unfold, Hk. simpl.
  by rewrite insert_insert_eq.
Qed.

Lemma gomap_insert_insert_ne m k k' v v' :
  k ≠ k' → self_equal k = true →
  <[k := v]> (<[k' := v']> m) = <[k' := v']> (<[k := v]> m).
Proof.
  intros Hne Hk. rewrite !gomap_insert_unfold, Hk.
  destruct (self_equal k'); simpl; [|done].
  by rewrite insert_insert_ne.
Qed.

Lemma gomap_delete_insert_id m k v :
  m !! k = None → self_equal k = true → delete k (<[k := v]> m) = m.
Proof.
  rewrite gomap_lookup_unfold, gomap_delete_unfold, gomap_insert_unfold.
  intros Hlook Hk. rewrite Hk in *. simpl.
  rewrite delete_insert_id by done. by destruct m.
Qed.

Lemma gomap_size_insert m k v :
  size (<[k := v]> m) = match m !! k with Some _ => size m | None => S (size m) end.
Proof.
  rewrite !gomap_size_unfold, gomap_lookup_unfold, gomap_insert_unfold.
  destruct (self_equal k); simpl.
  - rewrite map_size_insert. by destruct (reachable m !! k).
  - rewrite length_app. simpl. lia.
Qed.

Lemma gomap_size_delete m k :
  size (delete k m) = match m !! k with Some _ => pred (size m) | None => size m end.
Proof.
  rewrite gomap_lookup_unfold, gomap_delete_unfold.
  destruct (self_equal k); [|done].
  rewrite !gomap_size_unfold. simpl. rewrite map_size_delete.
  destruct (reachable m !! k) eqn:Hk; simpl; [|done].
  assert (size (reachable m) ≠ 0%nat) by (apply map_size_ne_0_lookup; eauto).
  lia.
Qed.

Lemma gomap_size_lookup m k v : m !! k = Some v → size m ≠ 0%nat.
Proof.
  rewrite gomap_lookup_unfold, gomap_size_unfold.
  destruct (self_equal k); [|done]. intros Hk.
  assert (size (reachable m) ≠ 0%nat) by (apply map_size_ne_0_lookup; eauto).
  lia.
Qed.

(** An assignment under a key that is not found adds one entry. *)
Lemma entries_insert_absent m k v :
  m !! k = None → entries (<[k := v]> m) ≡ₚ (k, v) :: entries m.
Proof.
  rewrite gomap_lookup_unfold, gomap_insert_unfold. unfold entries.
  destruct (self_equal k); simpl.
  - intros Hk. by rewrite map_to_list_insert.
  - intros _. rewrite app_assoc, <-Permutation_cons_append. done.
Qed.

Lemma well_formed_empty : well_formed (∅ : gomap K V).
Proof. split; [|done]. by intros k [v Hk]. Qed.

Lemma well_formed_plain (d : gmap K V) :
  (∀ k, is_Some (d !! k) → self_equal k = true) → well_formed (plain d).
Proof. by split. Qed.

Lemma well_formedb_correct m : well_formedb m = true → well_formed m.
Proof.
  unfold well_formedb. intros [Hr Hh]%andb_true_iff. split.
  - intros k [v Hk]. rewrite forallb_forall in Hr.
    apply (Hr (k, v)). apply list_elem_of_In. by apply elem_of_map_to_list.
  - apply Forall_forall. intros kv Hin. rewrite forallb_forall in Hh.
    apply negb_true_iff. apply Hh. by apply list_elem_of_In.
Qed.

Lemma well_formed_insert m k v : well_formed m → well_formed (<[k := v]> m).
Proof.
  intros [Hr Hh]. rewrite gomap_insert_unfold.
  destruct (self_equal k) eqn:Hk; split; simpl; try done.
  - intros k' Hk'. destruct (decide (k = k')) as [<-|Hne]; [done|].
    rewrite lookup_insert_ne in Hk' by done. by apply Hr.
  - apply Forall_app. split; [done|]. by apply Forall_singleton.
Qed.

Lemma well_formed_delete m k : well_formed m → well_formed (delete k m).
Proof.
  intros [Hr Hh]. rewrite gomap_delete_unfold.
  destruct (self_equal k); [|done]. split; [|done]. simpl.
  intros k' [v Hk']. apply Hr. apply lookup_delete_Some in Hk' as [_ Hk']. eauto.
Qed.

(** Under the invariant the lookups are those of [reachable]. *)
Lemma well_formed_lookup m k : well_formed m → m !! k = reachable m !! k.
Proof.
  intros [Hr _]. rewrite gomap_lookup_unfold.
  destruct (self_equal k) eqn:Hk; [done|].
  destruct (reachable m !! k) eqn:Hlook; [|done].
  rewrite Hr in Hk by eauto. done.
Qed.

Lemma gomap_eq m1 m2 :
  well_formed m1 → well_formed m2 →
  (∀ k, m1 !! k = m2 !! k) → hidden m1 = hidden m2 → m1 = m2.
Proof.
  intros Hw1 Hw2 Hlook Hh.
  assert (Hr : reachable m1 = reachable m2).
  { apply map_eq. intros k.
    by rewrite <-(well_formed_lookup _ k Hw1), <-(well_formed_lookup _ k Hw2). }
  destruct m1, m2. simpl in *. congruence.
Qed.

Lemma elem_of_gomap_dom m k : k ∈ dom m ↔ is_Some (m !! k).
Proof.
  change (dom m) with (filter (λ k, self_equal k = true) (dom (reachable m))).
  rewrite elem_of_filter, elem_of_dom, gomap_lookup_unfold.
  destruct (self_equal k); [split; [by intros [_ ?]|by split]|].
  split; [by intros [? _]|by intros [? ?]].
Qed.
End gomap_facts.

(** ** The view never looks at the mutex *)

Section blindness.
Context {K : Type} `{Countable K} `{!GoComparable K} {V : Type} `{!GoZero V} `{!GoAny}.
Implicit Types (w : world K V) (mu : RWMutex) (r : mapref).

Lemma with_Mu_same w : with_Mu (Mu (this w)) w = w.
Proof. by destruct w as [[??] ?]. Qed.

Lemma mu_blind_ret {A} (a : A) : mu_blind (ret a : M K V A).
Proof. done. Qed.

Lemma mu_blind_panic {A} p : mu_blind (panic p : M K V A).
Proof. done. Qed.

Lemma mu_blind_bind {A B} (c : M K V A) (k : A → M K V B) :
  mu_blind c → (∀ a, mu_blind (k a)) → mu_blind (let* a := c in k a).
Proof.
  intros Hc Hk mu w. unfold bind. rewrite Hc.
  destruct (c w) as [a w'|p w'|why]; simpl; [apply Hk|done..].
Qed.

Lemma bind_make_map {A} n (k : mapref → M K V A) w :
  (let* r := make_map n in k r) w =
  k (ref (fresh (dom (heap w))))
    (mkWorld (this w) (<[fresh (dom (heap w)) := ∅]> (heap w))).
Proof. done. Qed.

Lemma mu_blind_get_Data : mu_blind (get_Data : M K V mapref).
Proof. done. Qed.

Lemma mu_blind_set_Data r : mu_blind (set_Data r : M K V unit).
Proof. done. Qed.

Lemma mu_blind_make_map n : mu_blind (make_map n : M K V mapref).
Proof. done. Qed.

Lemma mu_blind_map_index r k : mu_blind (map_index r k : M K V (V * bool)).
Proof.
  intros mu w. unfold map_index. simpl.
  by destruct (contents (heap w) r !! k).
Qed.

Lemma mu_blind_map_assign r k v : mu_blind (map_assign r k v : M K V unit).
Proof. intros mu w. by destruct r. Qed.

Lemma mu_blind_map_delete r k : mu_blind (map_delete r k : M K V unit).
Proof. intros mu w. by destruct r. Qed.

Lemma mu_blind_map_len r : mu_blind (map_len r : M K V Z).
Proof. done. Qed.

Lemma mu_blind_range_loop {A} entries (body : K → V → A → M K V (A * bool)) a :
  (∀ k v a, mu_blind (body k v a)) → mu_blind (range_loop entries body a).
Proof.
  intros Hbody. revert a.
  induction entries as [|[k v] rest IH]; intros a; simpl.
  - apply mu_blind_ret.
  - apply mu_blind_bind; [apply Hbody|].
    intros [a' [|]]; [apply IH|apply mu_blind_ret].
Qed.

Lemma mu_blind_range_map {A} it r (body : K → V → A → M K V (A * bool)) a :
  (∀ k v a, mu_blind (body k v a)) → mu_blind (range_map it r body a).
Proof.
  intros Hbody mu w. unfold range_map. simpl.
  by apply mu_blind_range_loop.
Qed.

Create HintDb blind.
Hint Resolve mu_blind_ret mu_blind_panic mu_blind_get_Data mu_blind_set_Data
  mu_blind_make_map mu_blind_map_index mu_blind_map_assign
  mu_blind_map_delete mu_blind_map_len : blind.

Ltac blind :=
  repeat first
    [ apply mu_blind_bind; [|intros]
    | apply mu_blind_range_map; intros
    | match goal with
      | |- mu_blind (let '(_, _) := ?p in _) => destruct p
      | |- mu_blind (if ?b then _ else _) => destruct b
      end
    | solve [auto with blind] ].

Lemma mu_blind_invoke {T} (c : method K V T) : mu_blind (invoke lockedMap.view c).
Proof.
  destruct c; simpl;
    unfold lockedMap.Load, lockedMap.LoadOrStore, lockedMap.Store,
      lockedMap.LoadAndDelete, lockedMap.Remove, lockedMap.Purge,
      lockedMap.Range, lockedMap.Filter, lockedMap.Map, lockedMap.Len;
    blind.
Qed.

Lemma mu_blind_run {R} (f : callback K V R) : mu_blind (run f lockedMap.view).
Proof.
  induction f as [r|v|T c next IH]; simpl.
  - apply mu_blind_ret.
  - apply mu_blind_panic.
  - apply mu_blind_bind; [apply mu_blind_invoke|done].
Qed.

(** What a computation that ignores the mutex leaves in it. *)
Lemma mu_blind_frame {A} (c : M K V A) w :
  mu_blind c → on_world (with_Mu (Mu (this w))) (c w) = c w.
Proof. intros Hc. by rewrite <-Hc, with_Mu_same. Qed.

Lemma mu_blind_Returned {A} (c : M K V A) mu w a w' :
  mu_blind c → c (with_Mu mu w) = Returned a w' →
  Mu (this w') = mu ∧ c w = Returned a (with_Mu (Mu (this w)) w').
Proof.
  intros Hc Hrun. rewrite Hc in Hrun.
  rewrite <-(mu_blind_frame c w Hc).
  destruct (c w) as [a0 w0|p0 w0|why]; simplify_eq/=. done.
Qed.

Lemma mu_blind_Panicked {A} (c : M K V A) mu w p w' :
  mu_blind c → c (with_Mu mu w) = Panicked p w' →
  Mu (this w') = mu ∧ c w = Panicked p (with_Mu (Mu (this w)) w').
Proof.
  intros Hc Hrun. rewrite Hc in Hrun.
  rewrite <-(mu_blind_frame c w Hc).
  destruct (c w) as [a0 w0|p0 w0|why]; simplify_eq/=. done.
Qed.

(** [Lock(); defer Unlock(); body] on a free mutex. *)
Lemma locked_section {A} (body : M K V A) w :
  Mu (this w) = unlocked → mu_blind body →
  (Lock ;; defer Unlock body) w = body w.
Proof.
  intros Hmu Hbody.
  transitivity (on_world (with_Mu (Mu (this w))) (body w));
    [|by apply mu_blind_frame].
  unfold bind, Lock, defer, Unlock. rewrite Hmu. simpl.
  change (mkWorld _ _) with (with_Mu write_locked w).
  rewrite Hbody.
  by destruct (body w) as [a w'|p w'|why].
Qed.

(** [RLock(); defer RUnlock(); body] when no writer holds the mutex. *)
Lemma read_locked_section {A} (body : M K V A) w :
  writer (Mu (this w)) = false → mu_blind body →
  (RLock ;; defer RUnlock body) w = body w.
Proof.
  intros Hmu Hbody.
  transitivity (on_world (with_Mu (Mu (this w))) (body w));
    [|by apply mu_blind_frame].
  unfold bind, RLock, defer, RUnlock. rewrite Hmu. simpl.
  change (mkWorld _ _) with (with_Mu (mkRWMutex false (S (readers (Mu (this w))))) w).
  rewrite Hbody.
  destruct w as [[[wr rd] d] h]; simpl in *; subst wr.
  by destruct (body _) as [a w'|p w'|why].
Qed.

(** The public method is the method of the view between taking and
    releasing the lock. *)
Lemma public_invoke {T} (c : method K V T) w :
  Mu (this w) = unlocked → public c w = invoke lockedMap.view c w.
Proof.
  intros Hmu.
  assert (Hw : writer (Mu (this w)) = false) by by rewrite Hmu.
  destruct c; simpl;
    unfold SyncMap.Load, SyncMap.LoadOrStore, SyncMap.Store,
      SyncMap.LoadAndDelete, SyncMap.Remove, SyncMap.Purge,
      SyncMap.Range, SyncMap.Map, SyncMap.Len;
    try (by apply locked_section; [|blind]);
    try (by apply read_locked_section; [|blind]).
  (* Filter makes its result before it takes the lock *)
  unfold SyncMap.Filter, lockedMap.Filter. rewrite !bind_make_map.
  by apply read_locked_section; [|blind].
Qed.

(** A callback that leaves the mutex alone runs as if it had been called on
    the view directly. *)
Lemma DoLocked_runs_callback (f : LockedMap K V → M K V unit) w :
  Mu (this w) = unlocked → mu_blind (f lockedMap.view) →
  SyncMap.DoLocked f w = f lockedMap.view w.
Proof. intros. by apply locked_section. Qed.

Lemma DoLockedWithResult_runs_callback (f : LockedMap K V → M K V any) w :
  Mu (this w) = unlocked → mu_blind (f lockedMap.view) →
  SyncMap.DoLockedWithResult f w = f lockedMap.view w.
Proof. intros. by apply locked_section. Qed.

(** The lock is not reentrant: a public method never returns while the
    write lock is held, so a callback that calls one deadlocks. *)
Lemma public_blocks_under_lock {T} (c : method K V T) w :
  public c (with_Mu write_locked w) = Halted blocked_on_lock.
Proof. by destruct c. Qed.

Lemma reentrant_call_deadlocks {T} (c : method K V T) w :
  Mu (this w) = unlocked →
  SyncMap.DoLocked (λ _, public c ;; ret tt) w = Halted blocked_on_lock.
Proof.
  intros Hmu. unfold SyncMap.DoLocked, bind at 1, Lock. rewrite Hmu. simpl.
  unfold defer, bind.
  change (mkWorld _ _) with (with_Mu write_locked w).
  by rewrite public_blocks_under_lock.
Qed.
End blindness.

(** ** What each method of the view does to the world *)

Section specifications.
Context {K : Type} `{Countable K} `{!GoComparable K} {V : Type} `{!GoZero V} `{!GoAny}.
Implicit Types (w : world K V) (d m : gomap K V) (k : K) (v : V).

Lemma current_set_current d w :
  Data (this w) ≠ nil_map → current (set_current d w) = d.
Proof.
  unfold current, set_current. destruct w as [[mu [|l]] h]; simpl; [done|].
  intros _. by rewrite lookup_insert_eq.
Qed.

Lemma this_set_current d w : this (set_current d w) = this w.
Proof. unfold set_current. by destruct (Data (this w)). Qed.

Lemma constructed_not_nil w : constructed w → Data (this w) ≠ nil_map.
Proof. unfold constructed. by destruct (Data (this w)). Qed.

Lemma set_current_current w : constructed w → set_current (current w) w = w.
Proof.
  unfold constructed, current, set_current.
  destruct w as [[mu [|l]] h]; simpl; intros Hl; [done|].
  destruct Hl as (d & Hd & _). rewrite Hd. simpl. by rewrite insert_id.
Qed.

Lemma constructed_well_formed w : constructed w → well_formed (current w).
Proof.
  unfold constructed, current.
  destruct w as [[mu [|l]] h]; simpl; intros Hl; [done|].
  destruct Hl as (d & Hd & Hwf). by rewrite Hd.
Qed.

Lemma constructed_set_current d w :
  constructed w → well_formed d → constructed (set_current d w).
Proof.
  unfold constructed, set_current.
  destruct w as [[mu [|l]] h]; simpl; intros Hl Hd; [done|].
  rewrite lookup_insert_eq. by exists d.
Qed.

Lemma fresh_loc_unused (h : gmap loc (gomap K V)) : h !! fresh (dom h) = None.
Proof. apply not_elem_of_dom, is_fresh. Qed.

(** A map just made is not the one [Data] refers to. *)
Lemma current_alloc d w : constructed w → current (alloc d w) = current w.
Proof.
  unfold constructed, current, alloc.
  destruct w as [[mu [|l]] h]; simpl; intros Hl; [done|].
  rewrite lookup_insert_ne; [done|].
  intros <-. rewrite fresh_loc_unused in Hl. by destruct Hl as (? & ? & _).
Qed.

Lemma constructed_alloc d w : constructed w → constructed (alloc d w).
Proof.
  unfold constructed, alloc.
  destruct w as [[mu [|l]] h]; simpl; intros Hl; [done|].
  rewrite lookup_insert_ne; [done|].
  intros <-. rewrite fresh_loc_unused in Hl. by destruct Hl as (? & ? & _).
Qed.

Lemma Load_spec k w : lockedMap.Load k w = Returned (found (current w !! k)) w.
Proof.
  unfold lockedMap.Load, bind, get_Data, map_index, current.
  by destruct (contents _ _ !! k).
Qed.

Lemma Len_spec w : lockedMap.Len w = Returned (Z.of_nat (size (current w))) w.
Proof. done. Qed.

Lemma Store_spec k v w :
  Data (this w) ≠ nil_map →
  lockedMap.Store k v w = Returned tt (set_current (<[k := v]> (current w)) w).
Proof.
  unfold lockedMap.Store, bind, get_Data, map_assign, current, set_current.
  by destruct (Data (this w)).
Qed.

Lemma Store_nil k v w :
  Data (this w) = nil_map →
  lockedMap.Store k v w =
  Panicked (RuntimeError assignment_to_entry_in_nil_map) w.
Proof.
  unfold lockedMap.Store, bind, get_Data, map_assign. by intros ->.
Qed.

Lemma LoadOrStore_spec k v w :
  Data (this w) ≠ nil_map →
  lockedMap.LoadOrStore k v w =
  match current w !! k with
  | Some v' => Returned (v', true) w
  | None => Returned (v, false) (set_current (<[k := v]> (current w)) w)
  end.
Proof.
  unfold lockedMap.LoadOrStore, bind, get_Data, map_index, map_assign,
    current, set_current.
  destruct (Data (this w)) as [|l] eqn:Hd; [done|]. intros _.
  by destruct (contents _ _ !! k).
Qed.

Lemma LoadAndDelete_spec k w :
  lockedMap.LoadAndDelete k w =
  match current w !! k with
  | Some v => Returned (v, true) (set_current (delete k (current w)) w)
  | None => Returned (zero_value, false) w
  end.
Proof.
  unfold lockedMap.LoadAndDelete, bind, get_Data, map_index, map_delete,
    current, set_current.
  destruct w as [[mu [|l]] h]; simpl.
  - by rewrite gomap_lookup_empty.
  - by destruct (default ∅ (h !! l) !! k).
Qed.

Lemma Remove_spec k w :
  lockedMap.Remove k w =
  match current w !! k with
  | Some v => Returned true (set_current (delete k (current w)) w)
  | None => Returned false w
  end.
Proof.
  unfold lockedMap.Remove, bind, get_Data, map_index, map_delete,
    current, set_current.
  destruct w as [[mu [|l]] h]; simpl.
  - by rewrite gomap_lookup_empty.
  - by destruct (default ∅ (h !! l) !! k).
Qed.

Lemma Purge_spec w :
  lockedMap.Purge w =
  Returned tt
    (mkWorld (mkSyncMap (Mu (this w)) (ref (fresh (dom (heap w)))))
             (<[fresh (dom (heap w)) := ∅]> (heap w))).
Proof. done. Qed.

Lemma range_loop_visit {A} entries (f : visitor K V A) a w :
  range_loop entries (λ k v a, ret (f k v a)) a w =
  Returned (visit entries f a) w.
Proof.
  revert a. induction entries as [|[k v] rest IH]; intros a; [done|].
  simpl. unfold bind, ret at 1.
  destruct (f k v a) as [a' [|]]; [apply IH|done].
Qed.

Lemma Range_spec {A} it (f : visitor K V A) a w :
  lockedMap.Range it f a w = Returned (visit (enum it (current w)) f a) w.
Proof.
  unfold lockedMap.Range, bind, get_Data, range_map.
  apply range_loop_visit.
Qed.

(** The loop of [Map] and [Filter], writing into the object at [l]. *)
Lemma range_loop_gather e l entries acc w :
  heap w !! l = Some acc →
  range_loop entries
    (λ k v _,
       match e k v with
       | Some v' => map_assign (ref l) k v' ;; ret (tt, true)
       | None => ret (tt, true)
       end) tt w =
  Returned tt (mkWorld (this w) (<[l := gather e entries acc]> (heap w))).
Proof.
  revert acc w. induction entries as [|[k v] rest IH]; intros acc w Hl; simpl.
  - unfold ret. rewrite insert_id by done. by destruct w.
  - unfold bind at 1. destruct (e k v) as [v'|]; simpl.
    + unfold bind at 1, map_assign. simpl. rewrite Hl. simpl.
      erewrite IH by apply lookup_insert_eq. simpl.
      by rewrite insert_insert_eq.
    + by apply IH.
Qed.

Lemma range_loop_ext {A} entries (body body' : K → V → A → M K V (A * bool)) a w :
  (∀ k v a w, body k v a w = body' k v a w) →
  range_loop entries body a w = range_loop entries body' a w.
Proof.
  intros Hbody. revert a w.
  induction entries as [|[k v] rest IH]; intros a w; [done|].
  simpl. unfold bind. rewrite Hbody.
  destruct (body' k v a w) as [[a' [|]] w'|p w'|why]; [apply IH|done..].
Qed.

Lemma once_cons k v (l : list (K * V)) :
  once ((k, v) :: l) → once l ∧ (self_equal k = true → k ∉ l.*1).
Proof.
  unfold once. simpl. rewrite filter_cons.
  destruct (decide (self_equal k = true)) as [Hk|Hk].
  - intros [Hnin Hnd]%NoDup_cons. split; [done|]. intros _ Hin.
    apply Hnin. by apply list_elem_of_filter.
  - intros Hnd. split; [done|]. by intros ?.
Qed.

(** The keys that equal themselves occur once in the entries of a
    well-formed map, in whatever order. *)
Lemma once_enum (it : iteration K V) m : well_formed m → once (enum it m).
Proof.
  intros [Hr Hh]. unfold once. rewrite (enum_perm it m). unfold entries.
  rewrite fmap_app, filter_app.
  assert (Hnil : filter (λ k, self_equal k = true) (hidden m).*1 = []).
  { induction Hh as [|[k v] rest Hk _ IH]; [done|]. simpl.
    rewrite filter_cons_False; [done|]. simpl in Hk. by rewrite Hk. }
  rewrite Hnil, app_nil_r. apply NoDup_filter, NoDup_fst_map_to_list.
Qed.

Lemma gather_lookup e (l : list (K * V)) acc k :
  once l → self_equal k = true →
  (∀ v, (k, v) ∈ l →
        gather e l acc !! k =
        match e k v with Some v' => Some v' | None => acc !! k end) ∧
  (k ∉ l.*1 → gather e l acc !! k = acc !! k).
Proof.
  intros Hl Hk. revert acc Hl.
  induction l as [|[k0 v0] rest IH]; intros acc Hl.
  { split; [|done]. intros v Hin. by apply elem_of_nil in Hin. }
  apply once_cons in Hl as [Hrest Hk0].
  set (acc' := match e k0 v0 with Some v' => <[k0 := v']> acc | None => acc end).
  change (gather e ((k0, v0) :: rest) acc) with (gather e rest acc').
  destruct (IH acc' Hrest) as [IHin IHout].
  assert (Hother : k0 ≠ k → acc' !! k = acc !! k).
  { intros Hne. unfold acc'. destruct (e k0 v0); [|done].
    by apply gomap_lookup_insert_ne. }
  split.
  - intros v [[= <- <-]|Hin]%elem_of_cons.
    + rewrite IHout by auto. unfold acc'.
      destruct (e k v); [by apply gomap_lookup_insert_eq|done].
    + assert (k0 ≠ k).
      { intros ->. apply Hk0; [done|]. apply list_elem_of_fmap.
        by exists (k, v). }
      rewrite (IHin v Hin), Hother by done. done.
  - intros Hnin. apply not_elem_of_cons in Hnin as [Hne Hnin].
    rewrite IHout, Hother by done. done.
Qed.

(** Whatever order the runtime chooses, the map that the loop builds holds
    at each key what [e] makes of the entry there. *)
Lemma gather_enum_lookup e (it : iteration K V) m k :
  well_formed m → gather e (enum it m) ∅ !! k = m !! k ≫= e k.
Proof.
  intros Hm. destruct (self_equal k) eqn:Hk.
  2: { by rewrite !gomap_lookup_unequal. }
  destruct (gather_lookup e (enum it m) ∅ k (once_enum it m Hm) Hk) as [Hin Hout].
  rewrite (well_formed_lookup m k Hm).
  destruct (reachable m !! k) as [v|] eqn:Hlook; simpl.
  - rewrite (Hin v).
    + rewrite gomap_lookup_empty. by destruct (e k v).
    + rewrite (enum_perm it m). unfold entries. apply elem_of_app. left.
      by apply elem_of_map_to_list.
  - rewrite Hout; [apply gomap_lookup_empty|].
    rewrite (enum_perm it m). unfold entries. rewrite fmap_app.
    intros [Hin'|Hin']%elem_of_app.
    + apply list_elem_of_fmap in Hin' as ([k' v] & -> & Hin').
      apply elem_of_map_to_list in Hin'. simpl in Hlook. congruence.
    + destruct Hm as [_ Hh].
      apply list_elem_of_fmap in Hin' as ([k' v] & -> & Hin').
      rewrite Forall_forall in Hh. specialize (Hh _ Hin'). simpl in *. congruence.
Qed.

(** The entries of the map that the loop builds. *)
Lemma gather_entries e (l : list (K * V)) acc :
  once l → (∀ k, k ∈ l.*1 → acc !! k = None) →
  entries (gather e l acc) ≡ₚ
  entries acc ++ omap (λ '(k, v), pair k <$> e k v) l.
Proof.
  revert acc. induction l as [|[k0 v0] rest IH]; intros acc Hl Hacc.
  { simpl. by rewrite app_nil_r. }
  apply once_cons in Hl as [Hrest Hk0].
  set (acc' := match e k0 v0 with Some v' => <[k0 := v']> acc | None => acc end).
  change (gather e ((k0, v0) :: rest) acc) with (gather e rest acc').
  assert (Hacc' : ∀ k, k ∈ rest.*1 → acc' !! k = None).
  { intros k Hin. unfold acc'.
    assert (acc !! k = None) by (apply Hacc; by right).
    destruct (e k0 v0); [|done].
    destruct (self_equal k0) eqn:Hse.
    - rewrite gomap_lookup_insert_ne; [done|]. intros ->. by apply Hk0.
    - by rewrite gomap_lookup_insert_unequal. }
  rewrite (IH acc' Hrest Hacc'). simpl. unfold acc'.
  destruct (e k0 v0) as [v'|]; simpl; [|done].
  rewrite entries_insert_absent by (apply Hacc; by left).
  by rewrite <-Permutation_middle.
Qed.

Lemma gather_enum_entries e (it : iteration K V) m :
  well_formed m →
  entries (gather e (enum it m) ∅) ≡ₚ
  omap (λ '(k, v), pair k <$> e k v) (entries m).
Proof.
  intros Hm. rewrite gather_entries.
  - rewrite gomap_entries_empty. simpl. by rewrite (enum_perm it m).
  - by apply once_enum.
  - intros k _. apply gomap_lookup_empty.
Qed.

Lemma well_formed_gather e (l : list (K * V)) acc :
  well_formed acc → well_formed (gather e l acc).
Proof.
  revert acc. induction l as [|[k0 v0] rest IH]; intros acc Hacc; [done|].
  simpl. apply IH. destruct (e k0 v0); [by apply well_formed_insert|done].
Qed.

(** Without keys that do not equal themselves the loop hides nothing. *)
Lemma hidden_gather e (l : list (K * V)) acc :
  Forall (λ kv, self_equal kv.1 = true) l → hidden (gather e l acc) = hidden acc.
Proof.
  intros Hl. revert acc.
  induction Hl as [|[k0 v0] rest Hk0 _ IH]; intros acc; [done|].
  simpl. rewrite IH. destruct (e k0 v0); [|done].
  rewrite gomap_insert_unfold. simpl in Hk0. by rewrite Hk0.
Qed.

(** So that it builds the same map in whatever order. *)
Lemma gather_enum_plain e (it1 it2 : iteration K V) m :
  well_formed m → hidden m = [] →
  gather e (enum it1 m) ∅ = gather e (enum it2 m) ∅.
Proof.
  intros Hm Hh.
  assert (Hall : ∀ it : iteration K V,
    Forall (λ kv, self_equal kv.1 = true) (enum it m)).
  { intros it. rewrite (enum_perm it m). unfold entries.
    rewrite Hh, app_nil_r. apply Forall_forall. intros [k v] Hin.
    apply elem_of_map_to_list in Hin. destruct Hm as [Hr _]. apply Hr. eauto. }
  apply gomap_eq.
  - apply well_formed_gather, well_formed_empty.
  - apply well_formed_gather, well_formed_empty.
  - intros k. by rewrite !gather_enum_lookup.
  - by rewrite !hidden_gather.
Qed.

Lemma Map_spec it mapFn w :
  constructed w →
  lockedMap.Map it mapFn w =
  Returned (ref (fresh (dom (heap w))))
    (alloc (gather (λ k v, Some (mapFn k v)) (enum it (current w)) ∅) w).
Proof.
  intros Hw. unfold lockedMap.Map.
  unfold bind at 1 2, get_Data, map_len. rewrite bind_make_map.
  unfold bind at 1, range_map.
  fold (alloc ∅ w).
  change (contents (heap (alloc ∅ w)) (Data (this w)))
    with (current (alloc ∅ w)).
  rewrite (current_alloc ∅ w Hw).
  rewrite (range_loop_gather (λ k v, Some (mapFn k v)) (fresh (dom (heap w))) _ ∅)
    by apply lookup_insert_eq.
  simpl. unfold ret, alloc. by rewrite insert_insert_eq.
Qed.

Lemma Filter_spec it predicateFn w :
  constructed w →
  lockedMap.Filter it predicateFn w =
  Returned (ref (fresh (dom (heap w))))
    (alloc (gather (keep predicateFn) (enum it (current w)) ∅) w).
Proof.
  intros Hw. unfold lockedMap.Filter. rewrite bind_make_map.
  unfold bind at 1 2, get_Data, range_map.
  fold (alloc ∅ w).
  change (contents (heap (alloc ∅ w)) (Data (this (alloc ∅ w))))
    with (current (alloc ∅ w)).
  rewrite (current_alloc ∅ w Hw).
  rewrite (range_loop_ext _ _
    (λ k v _,
       match keep predicateFn k v with
       | Some v' => map_assign (ref (fresh (dom (heap w)))) k v' ;; ret (tt, true)
       | None => ret (tt, true)
       end)).
  2: { intros k v [] w'. unfold keep. by destruct (predicateFn k v). }
  rewrite (range_loop_gather (keep predicateFn) (fresh (dom (heap w))) _ ∅)
    by apply lookup_insert_eq.
  simpl. unfold ret, alloc. by rewrite insert_insert_eq.
Qed.
End specifications.

(** ** Every call comes back, and what it leaves behind *)

Section effects.
Context {K : Type} `{Countable K} `{!GoComparable K} {V : Type} `{!GoZero V} `{!GoAny}.
Implicit Types (w : world K V) (d m : gomap K V) (k : K) (v : V).

Lemma never_halts_bind {A B} (c : M K V A) (k : A → M K V B) :
  never_halts c → (∀ a, never_halts (k a)) → never_halts (let* a := c in k a).
Proof.
  intros Hc Hk w. unfold bind. specialize (Hc w).
  destruct (c w) as [a w'|p w'|why]; [apply Hk|done..].
Qed.

Lemma never_halts_range_loop {A} entries (body : K → V → A → M K V (A * bool)) a :
  (∀ k v a, never_halts (body k v a)) → never_halts (range_loop entries body a).
Proof.
  intros Hbody. revert a.
  induction entries as [|[k v] rest IH]; intros a; simpl; [done|].
  apply never_halts_bind; [apply Hbody|].
  by intros [a' [|]].
Qed.

Lemma never_halts_map_index r k : never_halts (map_index r k : M K V _).
Proof. intros w. unfold map_index. by destruct (contents _ _ !! k). Qed.

Lemma never_halts_map_assign r k v : never_halts (map_assign r k v : M K V _).
Proof. intros w. by destruct r. Qed.

Lemma never_halts_map_delete r k : never_halts (map_delete r k : M K V _).
Proof. intros w. by destruct r. Qed.

Ltac comes_back :=
  repeat first
    [ apply never_halts_bind; [|intros]
    | intros ?; apply never_halts_range_loop; intros
    | apply never_halts_map_index
    | apply never_halts_map_assign
    | apply never_halts_map_delete
    | match goal with
      | |- never_halts (let '(_, _) := ?p in _) => destruct p
      | |- never_halts (if ?b then _ else _) => destruct b
      end
    | done ].

(** No method of the view waits for anything. *)
Lemma never_halts_invoke {T} (c : method K V T) :
  never_halts (invoke lockedMap.view c).
Proof.
  destruct c; simpl;
    unfold lockedMap.Load, lockedMap.LoadOrStore, lockedMap.Store,
      lockedMap.LoadAndDelete, lockedMap.Remove, lockedMap.Purge,
      lockedMap.Range, lockedMap.Filter, lockedMap.Map, lockedMap.Len,
      range_map;
    comes_back.
Qed.

Lemma never_halts_run {R} (f : callback K V R) :
  never_halts (run f lockedMap.view).
Proof.
  induction f as [r|v|T c next IH]; simpl; [done..|].
  apply never_halts_bind; [apply never_halts_invoke|done].
Qed.

(** On a constructed store a method of the view returns, leaves the store
    constructed and the mutex alone, and changes the mapping as [effect]
    says. *)
Lemma well_formed_effect {T} (c : method K V T) d :
  well_formed d → well_formed (effect c d).
Proof.
  intros Hd. destruct c; simpl; try done.
  - destruct (d !! key); [done|]. by apply well_formed_insert.
  - by apply well_formed_insert.
  - by apply well_formed_delete.
  - by apply well_formed_delete.
  - apply well_formed_empty.
Qed.

Lemma invoke_effect {T} (c : method K V T) w :
  constructed w →
  ∃ t w', invoke lockedMap.view c w = Returned t w' ∧
          constructed w' ∧
          Mu (this w') = Mu (this w) ∧
          current w' = effect c (current w).
Proof.
  intros Hw. pose proof (constructed_not_nil w Hw) as Hnil.
  pose proof (constructed_well_formed w Hw) as Hwf.
  assert (Hset : ∀ d, well_formed d →
            constructed (set_current d w) ∧
            Mu (this (set_current d w)) = Mu (this w) ∧
            current (set_current d w) = d).
  { intros d Hd. rewrite this_set_current, current_set_current by done.
    split; [|done]. by apply constructed_set_current. }
  destruct c; simpl.
  - rewrite Load_spec. eauto 10.
  - rewrite LoadOrStore_spec by done.
    destruct (current w !! key); [eauto 10|].
    do 2 eexists. split; [done|]. by apply Hset, well_formed_insert.
  - rewrite Store_spec by done.
    do 2 eexists. split; [done|]. by apply Hset, well_formed_insert.
  - rewrite LoadAndDelete_spec.
    destruct (current w !! key) eqn:Hk.
    + do 2 eexists. split; [done|]. by apply Hset, well_formed_delete.
    + do 2 eexists. split; [done|]. by rewrite gomap_delete_id.
  - rewrite Remove_spec.
    destruct (current w !! k) eqn:Hk.
    + do 2 eexists. split; [done|]. by apply Hset, well_formed_delete.
    + do 2 eexists. split; [done|]. by rewrite gomap_delete_id.
  - rewrite Purge_spec. do 2 eexists. split; [done|].
    unfold constructed, current. simpl. rewrite lookup_insert_eq.
    split; [|done]. exists ∅. split; [done|]. apply well_formed_empty.
  - rewrite Range_spec. eauto 10.
  - rewrite Filter_spec by done. do 2 eexists. split; [done|].
    rewrite current_alloc by done. auto using constructed_alloc.
  - rewrite Map_spec by done. do 2 eexists. split; [done|].
    rewrite current_alloc by done. auto using constructed_alloc.
  - rewrite Len_spec. eauto 10.
Qed.

Lemma public_effect {T} (c : method K V T) w :
  ready w →
  ∃ t w', public c w = Returned t w' ∧ ready w' ∧
          current w' = effect c (current w).
Proof.
  intros [Hmu Hw]. rewrite public_invoke by done.
  destruct (invoke_effect c w Hw) as (t & w' & -> & Hw' & Hmu' & Hcur).
  exists t, w'. unfold ready. by rewrite Hmu', Hmu.
Qed.

Lemma public_Load k w :
  writer (Mu (this w)) = false →
  SyncMap.Load k w = Returned (found (current w !! k)) w.
Proof.
  intros Hmu. rewrite <-Load_spec.
  apply (read_locked_section (lockedMap.Load k)); [done|].
  apply (mu_blind_invoke (mLoad k)).
Qed.

(** The same, method by method. *)
Lemma public_Store k v w :
  Mu (this w) = unlocked → SyncMap.Store k v w = lockedMap.Store k v w.
Proof. apply (public_invoke (mStore k v)). Qed.

Lemma public_LoadOrStore k v w :
  Mu (this w) = unlocked →
  SyncMap.LoadOrStore k v w = lockedMap.LoadOrStore k v w.
Proof. apply (public_invoke (mLoadOrStore k v)). Qed.

Lemma public_LoadAndDelete k w :
  Mu (this w) = unlocked →
  SyncMap.LoadAndDelete k w = lockedMap.LoadAndDelete k w.
Proof. apply (public_invoke (mLoadAndDelete k)). Qed.

Lemma public_Remove k w :
  Mu (this w) = unlocked → SyncMap.Remove k w = lockedMap.Remove k w.
Proof. apply (public_invoke (mRemove k)). Qed.

Lemma public_Purge w :
  Mu (this w) = unlocked → SyncMap.Purge w = lockedMap.Purge w.
Proof. apply (public_invoke mPurge). Qed.

Lemma public_Len w :
  Mu (this w) = unlocked → SyncMap.Len w = lockedMap.Len w.
Proof. apply (public_invoke mLen). Qed.

Lemma public_Map it mapFn w :
  Mu (this w) = unlocked → SyncMap.Map it mapFn w = lockedMap.Map it mapFn w.
Proof. apply (public_invoke (mMap it mapFn)). Qed.

Lemma public_Range {A} it (f : visitor K V A) a w :
  Mu (this w) = unlocked → SyncMap.Range it f a w = lockedMap.Range it f a w.
Proof. apply (public_invoke (mRange it f a)). Qed.

Lemma effect_keeps_absent {T} (c : method K V T) k d :
  stores k (Op c) = false → d !! k = None → effect c d !! k = None.
Proof.
  destruct c; simpl; try done.
  - intros Hne%bool_decide_eq_false Hk.
    destruct (d !! key); [done|]. by rewrite gomap_lookup_insert_ne.
  - intros Hne%bool_decide_eq_false Hk. by rewrite gomap_lookup_insert_ne.
  - intros _ Hk. by apply gomap_lookup_delete_None.
  - intros _ Hk. by apply gomap_lookup_delete_None.
  - intros _ _. apply gomap_lookup_empty.
Qed.

Lemma effect_removes {T} (c : method K V T) k d :
  removes k (Op c) = true → effect c d !! k = None.
Proof.
  destruct c; simpl; try done.
  - intros ->%bool_decide_eq_true. apply gomap_lookup_delete_eq.
  - intros ->%bool_decide_eq_true. apply gomap_lookup_delete_eq.
  - intros _. apply gomap_lookup_empty.
Qed.

Lemma history_app (ops ops' : list (op K V)) w :
  history (ops ++ ops') w = (history ops ;; history ops') w.
Proof.
  revert w. induction ops as [|[T c] rest IH]; intros w; [done|].
  simpl. unfold bind in *.
  destruct (public c w) as [t w'|p w'|why]; [apply IH|done..].
Qed.

Lemma history_ready (ops : list (op K V)) w :
  ready w → ∃ w', history ops w = Returned tt w' ∧ ready w'.
Proof.
  revert w. induction ops as [|[T c] rest IH]; intros w Hw; [by exists w|].
  destruct (public_effect c w Hw) as (t & w1 & Hc & Hw1 & _).
  destruct (IH w1 Hw1) as (w' & Hrest & Hw').
  exists w'. simpl. unfold bind. by rewrite Hc.
Qed.

Lemma history_keeps_absent (ops : list (op K V)) k w :
  ready w → current w !! k = None →
  Forall (λ o, stores k o = false) ops →
  ∃ w', history ops w = Returned tt w' ∧ ready w' ∧ current w' !! k = None.
Proof.
  intros Hw Hk Hops. revert w Hw Hk.
  induction Hops as [|[T c] rest Hc Hrest IH]; intros w Hw Hk; [by exists w|].
  destruct (public_effect c w Hw) as (t & w1 & Hrun & Hw1 & Hcur).
  destruct (IH w1 Hw1) as (w' & Hrun' & Hw' & Hk').
  { rewrite Hcur. by apply effect_keeps_absent. }
  exists w'. simpl. unfold bind. by rewrite Hrun.
Qed.

Lemma New_ready size (h : gmap loc (gomap K V)) : ready (SyncMap.New size h).
Proof.
  unfold ready, constructed, SyncMap.New. simpl.
  rewrite lookup_insert_eq. split; [done|].
  exists ∅. split; [done|]. apply well_formed_empty.
Qed.

Lemma New_empty size (h : gmap loc (gomap K V)) :
  current (SyncMap.New size h) = ∅.
Proof. unfold current, SyncMap.New. simpl. by rewrite lookup_insert_eq. Qed.

(** A public call gives the same answer on two ready stores with the same
    mapping, and leaves them so. *)
Lemma public_alike {T} (c : method K V T) w1 w2 :
  alike w1 w2 →
  ∃ t1 t2 w1' w2',
    public c w1 = Returned t1 w1' ∧
    public c w2 = Returned t2 w2' ∧
    seen c t1 w1' = seen c t2 w2' ∧
    alike w1' w2'.
Proof.
  intros (Hw1 & Hw2 & Hcur).
  destruct (public_effect c w1 Hw1) as (t1 & w1' & Hrun1 & Hw1' & Hcur1).
  destruct (public_effect c w2 Hw2) as (t2 & w2' & Hrun2 & Hw2' & Hcur2).
  exists t1, t2, w1', w2'. split; [done|]. split; [done|].
  split; [|by unfold alike; rewrite Hcur1, Hcur2, Hcur].
  destruct Hw1 as [Hmu1 Hc1], Hw2 as [Hmu2 Hc2].
  pose proof (constructed_not_nil w1 Hc1) as Hnil1.
  pose proof (constructed_not_nil w2 Hc2) as Hnil2.
  rewrite public_invoke in Hrun1, Hrun2 by done.
  destruct c; simpl in *.
  - rewrite Load_spec in Hrun1, Hrun2. rewrite Hcur in Hrun1. congruence.
  - rewrite LoadOrStore_spec in Hrun1, Hrun2 by done. rewrite Hcur in Hrun1.
    destruct (current w2 !! key); congruence.
  - by destruct t1, t2.
  - rewrite LoadAndDelete_spec in Hrun1, Hrun2. rewrite Hcur in Hrun1.
    destruct (current w2 !! key); congruence.
  - rewrite Remove_spec in Hrun1, Hrun2. rewrite Hcur in Hrun1.
    destruct (current w2 !! k); congruence.
  - by destruct t1, t2.
  - rewrite Range_spec in Hrun1, Hrun2. rewrite Hcur in Hrun1. congruence.
  - rewrite Filter_spec in Hrun1, Hrun2 by done. rewrite Hcur in Hrun1.
    injection Hrun1 as <- <-. injection Hrun2 as <- <-.
    unfold alloc. simpl. by rewrite !lookup_insert_eq.
  - rewrite Map_spec in Hrun1, Hrun2 by done. rewrite Hcur in Hrun1.
    injection Hrun1 as <- <-. injection Hrun2 as <- <-.
    unfold alloc. simpl. by rewrite !lookup_insert_eq.
  - rewrite Len_spec in Hrun1, Hrun2. rewrite Hcur in Hrun1. congruence.
Qed.

Lemma history_alike (ops : list (op K V)) w1 w2 :
  alike w1 w2 →
  ∃ u1 u2, history ops w1 = Returned tt u1 ∧
           history ops w2 = Returned tt u2 ∧
           alike u1 u2.
Proof.
  revert w1 w2. induction ops as [|[T c] rest IH]; intros w1 w2 Hw.
  { by exists w1, w2. }
  destruct (public_alike c w1 w2 Hw) as (t1 & t2 & w1' & w2' & Hr1 & Hr2 & _ & Hw').
  destruct (IH w1' w2' Hw') as (u1 & u2 & Hh1 & Hh2 & Hu).
  exists u1, u2. simpl. unfold bind. by rewrite Hr1, Hr2.
Qed.

Lemma alike_indistinguishable w1 w2 : alike w1 w2 → indistinguishable w1 w2.
Proof.
  intros Hw ops T c.
  destruct (history_alike ops w1 w2 Hw) as (u1 & u2 & Hh1 & Hh2 & Hu).
  destruct (public_alike c u1 u2 Hu) as (t1 & t2 & u1' & u2' & Hr1 & Hr2 & Hseen & _).
  by exists u1, u2, t1, t2, u1', u2'.
Qed.
End effects.

(** ** The calls that Range makes *)

Section visits.
Context {K : Type} `{Countable K} {V : Type} {A : Type}.
Implicit Types (entries : list (K * V)) (f : visitor K V A) (a : A).

(** The log that a wrapped visitor keeps is the trace of the loop. *)
Lemma visit_logged entries f log a :
  visit entries (logged f) (log, a) = (log ++ trace entries f a, visit entries f a).
Proof.
  revert log a. induction entries as [|[k v] rest IH]; intros log a; simpl.
  - by rewrite app_nil_r.
  - destruct (f k v a) as [a' [|]].
    + by rewrite IH, <-app_assoc.
    + done.
Qed.

(** The loop calls the visitor on entries taken in order from the front. *)
Lemma trace_submseteq entries f a : (trace entries f a).*1 ⊆+ entries.
Proof.
  revert a. induction entries as [|[k v] rest IH]; intros a; simpl; [done|].
  destruct (f k v a) as [a' [|]]; simpl.
  - by apply submseteq_skip.
  - apply submseteq_skip, submseteq_nil_l.
Qed.

(** A stop signal ends the loop: it can only be the last call. *)
Lemma trace_stop_is_last entries f a n k v :
  trace entries f a !! n = Some (k, v, false) →
  length (trace entries f a) = S n.
Proof.
  revert a n. induction entries as [|[k0 v0] rest IH]; intros a n; simpl; [done|].
  destruct (f k0 v0 a) as [a' [|]]; destruct n as [|n]; simpl; try done.
  intros Hn. f_equal. by eapply IH.
Qed.

(** With a visitor that never stops, the loop calls it on every entry. *)
Lemma trace_all entries f a :
  (∀ k v s, (f k v s).2 = true) → (trace entries f a).*1 = entries.
Proof.
  intros Hf. revert a. induction entries as [|[k v] rest IH]; intros a; simpl; [done|].
  specialize (Hf k v a). destruct (f k v a) as [a' c]. simpl in Hf. subst c.
  simpl. by rewrite IH.
Qed.
End visits.

(** ** The properties of the specification *)

Section claims.
Context {K : Type} `{Countable K} `{!GoComparable K} {V : Type} `{!GoZero V} `{!GoAny}.
Implicit Types (w : world K V) (d : gomap K V) (k : K) (v : V).

(** C1, amended.  On a ready store, [Store(k, v)] returns and the
    [Load(k)] that follows returns [(v, true)] when [k] equals itself, and
    the zero value and [false] when it does not (a NaN).  [Load(k)] returns
    the zero value and [false] after any sequence of public calls on a
    [New] store in which no call stores [k], and after any sequence of
    public calls in which a removal of [k] ([Remove], [LoadAndDelete] or
    [Purge]) is followed by no call that stores [k]. *)
Theorem Load_after_Store_and_when_absent
    (k : K) (v : V) (w : world K V) (size : Z) (h : gmap loc (gomap K V))
    (before after : list (op K V)) (rm : op K V) :
  ready w →
  removes k rm = true →
  Forall (λ o, stores k o = false) after →
  (∃ w', SyncMap.Store k v w = Returned tt w' ∧
         SyncMap.Load k w' =
           Returned (if self_equal k then (v, true) else (zero_value, false)) w') ∧
  (∃ w', history after (SyncMap.New size h) = Returned tt w' ∧
         SyncMap.Load k w' = Returned (zero_value, false) w') ∧
  (∃ w', history (before ++ rm :: after) w = Returned tt w' ∧
         SyncMap.Load k w' = Returned (zero_value, false) w').
Proof.
  intros Hw Hrm Hafter. split; [|split].
  - destruct (public_effect (mStore k v) w Hw) as ([] & w' & Hrun & [Hmu _] & Hcur).
    exists w'. split; [done|].
    rewrite public_Load by by rewrite Hmu.
    rewrite Hcur. simpl. destruct (self_equal k) eqn:Hk.
    + by rewrite gomap_lookup_insert_eq.
    + by rewrite gomap_lookup_unequal.
  - destruct (history_keeps_absent after k (SyncMap.New size h))
      as (w' & Hrun & [Hmu _] & Hk); auto using New_ready.
    { rewrite New_empty. apply gomap_lookup_empty. }
    exists w'. split; [done|].
    rewrite public_Load by by rewrite Hmu. by rewrite Hk.
  - destruct (history_ready before w Hw) as (w1 & Hrun1 & Hw1).
    destruct rm as [T c].
    destruct (public_effect c w1 Hw1) as (t & w2 & Hrun2 & Hw2 & Hcur2).
    destruct (history_keeps_absent after k w2) as (w' & Hrun & [Hmu _] & Hk);
      [done| |done|].
    { rewrite Hcur2. by apply effect_removes. }
    exists w'. split.
    + rewrite history_app. unfold bind. rewrite Hrun1. simpl.
      unfold bind. by rewrite Hrun2.
    + rewrite public_Load by by rewrite Hmu. by rewrite Hk.
Qed.

(** C2.  On a store whose mutex is free, every operation of the view,
    run by [lockedMap], has the outcome of the public method of the same
    name: the same result and the same world afterwards; so has the call
    made on the view that [DoLocked] hands to its callback.  The view's
    method neither reads nor writes the mutex, whatever its state, and
    comes back when the lock is held; the public method takes the lock,
    and so never returns while it is held. *)
Theorem view_agrees_with_public_methods
    {T} (c : method K V T) (w : world K V) :
  Mu (this w) = unlocked →
  public c w = invoke lockedMap.view c w ∧
  SyncMap.DoLocked (λ m, invoke m c ;; ret tt) w = (public c ;; ret tt) w ∧
  (∀ mu, invoke lockedMap.view c (with_Mu mu w) =
         on_world (with_Mu mu) (invoke lockedMap.view c w)) ∧
  completes (invoke lockedMap.view c (with_Mu write_locked w)) ∧
  public c (with_Mu write_locked w) = Halted blocked_on_lock.
Proof.
  intros Hmu. split; [by apply public_invoke|]. split; [|split; [|split]].
  - rewrite DoLocked_runs_callback; [|done|].
    + unfold bind. by rewrite public_invoke.
    + apply mu_blind_bind; [apply mu_blind_invoke|intros; apply mu_blind_ret].
  - intros mu. apply mu_blind_invoke.
  - apply never_halts_invoke.
  - apply public_blocks_under_lock.
Qed.

(** C3, amended.  When the callback, run on the view under the lock,
    returns [r] and leaves the world [w'], [DoLockedWithResult] returns [r]
    and leaves [w'] with the mutex released: every later public call does to
    that world what the view's method would have done at the end of the
    callback.  So after a callback that stores two keys the mapping holds
    both entries, and [Load] finds each key that equals itself. *)
Theorem DoLockedWithResult_returns_what_the_callback_returns
    (f : callback K V any) (w w' : world K V) (r : any)
    (k1 k2 : K) (v1 v2 : V) (r0 : any) :
  ready w →
  run f lockedMap.view (with_Mu write_locked w) = Returned r w' →
  SyncMap.DoLockedWithResult (run f) w = Returned r (with_Mu unlocked w') ∧
  (∀ T (c : method K V T),
     public c (with_Mu unlocked w') =
     on_world (with_Mu unlocked) (invoke lockedMap.view c w')) ∧
  (∃ w2,
     SyncMap.DoLockedWithResult
       (run (Call (mStore k1 v1) (λ _,
             Call (mStore k2 v2) (λ _,
             Return r0)))) w = Returned r0 w2 ∧
     current w2 = <[k2 := v2]> (<[k1 := v1]> (current w)) ∧
     (self_equal k1 = true →
      SyncMap.Load k1 w2 =
        Returned (if decide (k1 = k2) then v2 else v1, true) w2) ∧
     (self_equal k2 = true →
      SyncMap.Load k2 w2 = Returned (v2, true) w2)).
Proof.
  intros [Hmu Hw] Hrun. split; [|split].
  - destruct (mu_blind_Returned _ _ _ _ _ (mu_blind_run f) Hrun) as [_ Hrun0].
    rewrite DoLockedWithResult_runs_callback by auto using mu_blind_run.
    by rewrite Hrun0, Hmu.
  - intros T c. rewrite public_invoke by done. apply mu_blind_invoke.
  - rewrite DoLockedWithResult_runs_callback by auto using mu_blind_run.
    pose proof (constructed_not_nil w Hw) as Hnil.
    simpl. unfold bind. rewrite Store_spec by done.
    rewrite Store_spec by by rewrite this_set_current.
    eexists. split; [done|].
    rewrite !public_Load by by rewrite !this_set_current, Hmu.
    rewrite !current_set_current by by rewrite ?this_set_current.
    split; [done|]. split.
    + intros Hk1. destruct (decide (k1 = k2)) as [->|Hne].
      * by rewrite gomap_lookup_insert_eq.
      * rewrite gomap_lookup_insert_ne by done.
        by rewrite gomap_lookup_insert_eq.
    + intros Hk2. by rewrite gomap_lookup_insert_eq.
Qed.

(** C4.  When the callback, run on the view under the lock, panics with
    [p] and leaves the world [w'], [DoLocked] and [DoLockedWithResult]
    panic with the same [p], and the world they leave to the caller is [w']
    with the mutex released; every public call made on it afterwards takes
    the lock and comes back. *)
Theorem panic_in_callback_releases_the_lock
    (f : callback K V unit) (g : callback K V any)
    (w wf wg : world K V) (p q : panic_value) :
  Mu (this w) = unlocked →
  run f lockedMap.view (with_Mu write_locked w) = Panicked p wf →
  run g lockedMap.view (with_Mu write_locked w) = Panicked q wg →
  SyncMap.DoLocked (run f) w = Panicked p (with_Mu unlocked wf) ∧
  SyncMap.DoLockedWithResult (run g) w = Panicked q (with_Mu unlocked wg) ∧
  (∀ T (c : method K V T),
     public c (with_Mu unlocked wf) = invoke lockedMap.view c (with_Mu unlocked wf) ∧
     completes (public c (with_Mu unlocked wf))) ∧
  (∀ T (c : method K V T),
     public c (with_Mu unlocked wg) = invoke lockedMap.view c (with_Mu unlocked wg) ∧
     completes (public c (with_Mu unlocked wg))).
Proof.
  intros Hmu Hf Hg.
  destruct (mu_blind_Panicked _ _ _ _ _ (mu_blind_run f) Hf) as [_ Hf0].
  destruct (mu_blind_Panicked _ _ _ _ _ (mu_blind_run g) Hg) as [_ Hg0].
  assert (Husable : ∀ w0 T (c : method K V T),
    public c (with_Mu unlocked w0) = invoke lockedMap.view c (with_Mu unlocked w0) ∧
    completes (public c (with_Mu unlocked w0))).
  { intros w0 T c. rewrite public_invoke by done.
    split; [done|apply never_halts_invoke]. }
  split; [|split; [|split]]; [| |by apply Husable..].
  - rewrite DoLocked_runs_callback by auto using mu_blind_run.
    by rewrite Hf0, Hmu.
  - rewrite DoLockedWithResult_runs_callback by auto using mu_blind_run.
    by rewrite Hg0, Hmu.
Qed.

(** C5, amended.  On a ready store: when [k] is absent, [LoadOrStore(k, v1)]
    stores [v1] and returns [(v1, false)]; if [k] equals itself, a second
    [LoadOrStore(k, v2)] then returns [(v1, true)] and changes nothing, and
    [Load(k)] still yields [v1]; if [k] does not equal itself (a NaN), the
    second [LoadOrStore(k, v2)] stores again and returns [(v2, false)], and
    [Load(k)] finds nothing.  When [k] is present with [v],
    [LoadOrStore(k, v2)] returns [(v, true)] and leaves the world as it
    was. *)
Theorem LoadOrStore_first_writer_wins (k : K) (v1 v2 : V) (w : world K V) :
  ready w →
  (current w !! k = None →
   ∃ w1, SyncMap.LoadOrStore k v1 w = Returned (v1, false) w1 ∧
         current w1 = <[k := v1]> (current w) ∧
         (self_equal k = true →
          SyncMap.LoadOrStore k v2 w1 = Returned (v1, true) w1 ∧
          SyncMap.Load k w1 = Returned (v1, true) w1) ∧
         (self_equal k = false →
          (∃ w2, SyncMap.LoadOrStore k v2 w1 = Returned (v2, false) w2 ∧
                 current w2 = <[k := v2]> (current w1)) ∧
          SyncMap.Load k w1 = Returned (zero_value, false) w1)) ∧
  (∀ v, current w !! k = Some v →
        SyncMap.LoadOrStore k v2 w = Returned (v, true) w ∧
        SyncMap.Load k w = Returned (v, true) w).
Proof.
  intros [Hmu Hw]. pose proof (constructed_not_nil w Hw) as Hnil.
  assert (Hpresent : ∀ w0 v, Mu (this w0) = unlocked → Data (this w0) ≠ nil_map →
    current w0 !! k = Some v →
    SyncMap.LoadOrStore k v2 w0 = Returned (v, true) w0 ∧
    SyncMap.Load k w0 = Returned (v, true) w0).
  { intros w0 v Hmu0 Hnil0 Hk.
    rewrite public_LoadOrStore by done.
    rewrite LoadOrStore_spec, public_Load, Hk by by rewrite ?Hmu0. done. }
  split; [|by eauto].
  intros Hk.
  rewrite public_LoadOrStore by done.
  rewrite LoadOrStore_spec, Hk by done.
  eexists. split; [done|].
  rewrite current_set_current by done. split; [done|]. split.
  - intros Hse.
    apply Hpresent; rewrite ?this_set_current, ?current_set_current; try done.
    by apply gomap_lookup_insert_eq.
  - intros Hse. split.
    + rewrite public_LoadOrStore by by rewrite this_set_current.
      rewrite LoadOrStore_spec by by rewrite this_set_current.
      rewrite current_set_current by done.
      rewrite gomap_lookup_unequal by done.
      eexists. split; [done|].
      by rewrite current_set_current by by rewrite this_set_current.
    + rewrite public_Load by by rewrite this_set_current, Hmu.
      by rewrite gomap_lookup_unequal.
Qed.

(** C6.  On a ready store: when [k] is present with [v], [LoadAndDelete(k)]
    has the outcome of [Load(k)] followed by [Remove(k)] with the result of
    the [Load]: it returns [(v, true)] and [k] is absent afterwards; when
    [k] is absent it returns the zero value and [false] and leaves the
    world as it was. *)
Theorem LoadAndDelete_is_Load_then_Remove (k : K) (w : world K V) :
  ready w →
  (∀ v, current w !! k = Some v →
        SyncMap.LoadAndDelete k w =
          (let* r := SyncMap.Load k in SyncMap.Remove k ;; ret r) w ∧
        ∃ w', SyncMap.LoadAndDelete k w = Returned (v, true) w' ∧
              current w' = delete k (current w) ∧
              SyncMap.Load k w' = Returned (zero_value, false) w') ∧
  (current w !! k = None →
   SyncMap.LoadAndDelete k w = Returned (zero_value, false) w).
Proof.
  intros [Hmu Hw]. pose proof (constructed_not_nil w Hw) as Hnil.
  rewrite public_LoadAndDelete by done.
  rewrite LoadAndDelete_spec.
  split; [intros v Hk|intros Hk]; rewrite Hk; [|done].
  split.
  - unfold bind. rewrite public_Load by by rewrite Hmu.
    rewrite public_Remove by done.
    by rewrite Remove_spec, Hk.
  - eexists. split; [done|].
    rewrite current_set_current by done. split; [done|].
    rewrite public_Load by by rewrite this_set_current, Hmu.
    by rewrite current_set_current, gomap_lookup_delete_eq.
Qed.

(** C7.  On a ready store, [Map(f)] returns a reference to a map object
    that did not exist before the call and that holds, at every key,
    [f k v] if the store holds [v] at [k] and nothing otherwise; its entries
    are those of the store with [f] applied, the ones under keys that do
    not equal themselves included; the struct, its mapping and every map
    object that existed before are unchanged. *)
Theorem Map_returns_fresh_transformed_map
    (it : iteration K V) (mapFn : K → V → V) (w : world K V) :
  ready w →
  ∃ l w', SyncMap.Map it mapFn w = Returned (ref l) w' ∧
          heap w !! l = None ∧
          (∀ k, contents (heap w') (ref l) !! k = mapFn k <$> current w !! k) ∧
          dom (contents (heap w') (ref l)) = dom (current w) ∧
          entries (contents (heap w') (ref l)) ≡ₚ
            (λ '(k, v), (k, mapFn k v)) <$> entries (current w) ∧
          this w' = this w ∧
          current w' = current w ∧
          (∀ l', l' ≠ l → heap w' !! l' = heap w !! l').
Proof.
  intros [Hmu Hw]. pose proof (constructed_well_formed w Hw) as Hwf.
  rewrite public_Map by done.
  rewrite Map_spec by done.
  set (e := λ k v, Some (mapFn k v)).
  exists (fresh (dom (heap w))), (alloc (gather e (enum it (current w)) ∅) w).
  assert (Hcont :
    contents (heap (alloc (gather e (enum it (current w)) ∅) w))
      (ref (fresh (dom (heap w)))) = gather e (enum it (current w)) ∅).
  { unfold alloc. simpl. by rewrite lookup_insert_eq. }
  assert (Hres : ∀ k,
    gather e (enum it (current w)) ∅ !! k = mapFn k <$> current w !! k).
  { intros k. rewrite gather_enum_lookup by done.
    by destruct (current w !! k). }
  rewrite Hcont.
  split; [done|]. split; [apply fresh_loc_unused|]. split; [done|].
  split; [|split; [|split; [done|split]]].
  - apply set_eq; intros k. rewrite !elem_of_gomap_dom, Hres.
    by rewrite fmap_is_Some.
  - rewrite gather_enum_entries by done. unfold e.
    induction (entries (current w)) as [|[k v] rest IH]; [done|].
    simpl. by rewrite IH.
  - by apply current_alloc.
  - intros l' Hne. unfold alloc. simpl. by rewrite lookup_insert_ne.
Qed.

(** C8.  On a ready store, [Range] returns and leaves the world as it was.
    The calls it makes to the visitor are recorded by [logged]: they are
    made on distinct entries of the map, so there are no more calls than
    entries; if the visitor always answers "continue", every entry of the
    map is visited exactly once; if the visitor answers "stop" at its
    [N]-th call, at most [N] entries are visited. *)
Theorem Range_visits_each_entry_once_until_stopped
    {A} (it : iteration K V) (f : visitor K V A) (a : A)
    (w : world K V) (N : nat) :
  ready w →
  ∃ log a',
    SyncMap.Range it (logged f) ([], a) w = Returned (log, a') w ∧
    SyncMap.Range it f a w = Returned a' w ∧
    log.*1 ⊆+ entries (current w) ∧
    (length log ≤ size (current w))%nat ∧
    ((∀ k v s, (f k v s).2 = true) → log.*1 ≡ₚ entries (current w)) ∧
    ((0 < N)%nat → (∃ k v, log !! (N - 1)%nat = Some (k, v, false)) →
     (length log ≤ N)%nat).
Proof.
  intros [Hmu Hw].
  rewrite !public_Range, !Range_spec by done.
  rewrite visit_logged. simpl.
  set (l := enum it (current w)).
  exists (trace l f a), (visit l f a).
  assert (Hsub : (trace l f a).*1 ⊆+ entries (current w)).
  { rewrite <-(enum_perm it (current w)). apply trace_submseteq. }
  split; [done|]. split; [done|]. split; [done|]. split; [|split].
  - apply submseteq_length in Hsub.
    by rewrite length_fmap in Hsub.
  - intros Hf. rewrite trace_all by done. apply enum_perm.
  - intros HN (k & v & Hstop).
    apply trace_stop_is_last in Hstop. lia.
Qed.

(** C9.  On a ready store [Purge] returns and leaves a ready store whose
    mapping is empty: [Len] returns 0 and [Load] of any key returns the
    zero value and [false].  The mutex is left as it was found.  No method
    tells the store that [Purge] leaves from the one in which the map
    object was emptied where it is: after any sequence of public calls,
    every public call gives the same answer on both; and on a store that
    was already empty, none tells it from the store before the call. *)
Theorem Purge_leaves_an_empty_mapping (w : world K V) :
  ready w →
  ∃ w', SyncMap.Purge w = Returned tt w' ∧
        ready w' ∧
        Mu (this w') = Mu (this w) ∧
        current w' = ∅ ∧
        SyncMap.Len w' = Returned 0 w' ∧
        (∀ k, SyncMap.Load k w' = Returned (zero_value, false) w') ∧
        indistinguishable w' (set_current ∅ w) ∧
        (current w = ∅ → current w' = current w ∧ indistinguishable w' w).
Proof.
  intros [Hmu Hw]. pose proof (constructed_not_nil w Hw) as Hnil.
  rewrite public_Purge, Purge_spec by done.
  eexists. split; [done|].
  set (w' := mkWorld (mkSyncMap (Mu (this w)) (ref (fresh (dom (heap w)))))
                     (<[fresh (dom (heap w)) := ∅]> (heap w)) : world K V).
  assert (Hcur : current w' = ∅).
  { unfold current. simpl. by rewrite lookup_insert_eq. }
  assert (Hmu' : Mu (this w') = unlocked) by done.
  assert (Hready : ready w').
  { split; [done|]. unfold constructed. simpl. rewrite lookup_insert_eq.
    exists ∅. split; [done|]. apply well_formed_empty. }
  split; [done|]. split; [done|]. split; [done|].
  split; [|split; [|split]].
  - rewrite public_Len, Len_spec, Hcur by done.
    by rewrite gomap_size_empty.
  - intros k. rewrite public_Load by by rewrite Hmu'.
    by rewrite Hcur, gomap_lookup_empty.
  - apply alike_indistinguishable. split; [done|]. split.
    + split; [by rewrite this_set_current|].
      apply constructed_set_current; [done|apply well_formed_empty].
    + by rewrite Hcur, current_set_current.
  - intros Hempty. split; [by rewrite Hcur|].
    apply alike_indistinguishable. split; [done|]. split; [done|].
    by rewrite Hcur.
Qed.

(** How [Purge] empties the mapping: [Data] is made to refer to a map
    object that did not exist before, and every map object that existed,
    the one [Data] referred to included, keeps its entries. *)
Lemma Purge_makes_a_new_map_object (w : world K V) :
  ready w →
  ∃ l w', SyncMap.Purge w = Returned tt w' ∧
          Data (this w') = ref l ∧
          heap w !! l = None ∧
          (∀ l', is_Some (heap w !! l') → heap w' !! l' = heap w !! l').
Proof.
  intros [Hmu Hw].
  rewrite public_Purge, Purge_spec by done.
  eexists _, _. split; [done|]. split; [done|].
  split; [apply fresh_loc_unused|].
  intros l' Hl'. simpl. rewrite lookup_insert_ne; [done|].
  intros <-. rewrite fresh_loc_unused in Hl'. by destruct Hl'.
Qed.
End claims.

(** ** The properties on the stores of the tests *)

Ltac ready_by_computation :=
  split; [reflexivity
         |eexists; split; [vm_compute; reflexivity
                          |apply well_formedb_correct; vm_compute; reflexivity]].

Lemma Load_after_Store_and_when_absent_witness :
  (∃ w', SyncMap.Store "key1" 1 fresh_store = Returned tt w' ∧
         SyncMap.Load "key1" w' = Returned (1, true) w') ∧
  (∃ w', history [Op (mStore "key2" 2); Op mLen] (SyncMap.New 10 ∅)
           = Returned tt w' ∧
         SyncMap.Load "key1" w' = Returned (zero_value, false) w') ∧
  (∃ w', history ([Op (mStore "key1" 1)] ++ Op (mRemove "key1")
                    :: [Op (mStore "key2" 2); Op mLen]) fresh_store
           = Returned tt w' ∧
         SyncMap.Load "key1" w' = Returned (zero_value, false) w').
Proof.
  refine (Load_after_Store_and_when_absent "key1" 1 fresh_store 10 ∅
            [Op (mStore "key1" 1)] [Op (mStore "key2" 2); Op mLen]
            (Op (mRemove "key1")) _ _ _).
  - ready_by_computation.
  - reflexivity.
  - repeat constructor.
Defined.

(** C1 as stated fails at a key that does not equal itself: in a
    [SyncMap[float64, int]], [Store(NaN, 1)] adds an entry, and the
    [Load(NaN)] that follows returns [(0, false)]. *)
Lemma Load_misses_a_stored_NaN :
  ∃ w', SyncMap.Store NaN 1 float_store = Returned tt w' ∧
        SyncMap.Len w' = Returned 1 w' ∧
        SyncMap.Load NaN w' = Returned (0, false) w' ∧
        SyncMap.Load NaN w' ≠ Returned (1, true) w'.
Proof.
  eexists. split; [vm_compute; reflexivity|].
  split; [vm_compute; reflexivity|].
  split; [vm_compute; reflexivity|].
  vm_compute. discriminate.
Qed.

Lemma view_agrees_with_public_methods_witness :
  public (mStore "key3" 3) two_keys =
    invoke lockedMap.view (mStore "key3" 3) two_keys ∧
  SyncMap.DoLocked (λ m, invoke m (mStore "key3" 3) ;; ret tt) two_keys =
    (public (mStore "key3" 3) ;; ret tt) two_keys ∧
  (∀ mu, invoke lockedMap.view (mStore "key3" 3) (with_Mu mu two_keys) =
         on_world (with_Mu mu) (invoke lockedMap.view (mStore "key3" 3) two_keys)) ∧
  completes (invoke lockedMap.view (mStore "key3" 3) (with_Mu write_locked two_keys)) ∧
  public (mStore "key3" 3) (with_Mu write_locked two_keys) = Halted blocked_on_lock.
Proof.
  apply (view_agrees_with_public_methods (mStore "key3" 3) two_keys).
  reflexivity.
Defined.

Lemma DoLockedWithResult_returns_what_the_callback_returns_witness :
  let f : callback string Z any :=
    Call (mStore "key5" 5) (λ _,
    Call (mStore "key6" 6) (λ _,
    Call mLen (λ n, Return (int_ n)))) in
  let w' : world string Z :=
    mkWorld (mkSyncMap write_locked (ref 1%positive))
            {[ 1%positive := plain {[ "key5" := 5; "key6" := 6 ]} ]} in
  SyncMap.DoLockedWithResult (run f) fresh_store
    = Returned (int_ 2) (with_Mu unlocked w') ∧
  (∀ T (c : method string Z T),
     public c (with_Mu unlocked w') =
     on_world (with_Mu unlocked) (invoke lockedMap.view c w')) ∧
  (∃ w2,
     SyncMap.DoLockedWithResult
       (run (Call (mStore "key5" 5) (λ _,
             Call (mStore "key6" 6) (λ _,
             Return (string_ "done"))))) fresh_store
       = Returned (string_ "done") w2 ∧
     current w2 = <["key6" := 6]> (<["key5" := 5]> (current fresh_store)) ∧
     SyncMap.Load "key5" w2
       = Returned (if decide ("key5" = "key6") then 6 else 5, true) w2 ∧
     SyncMap.Load "key6" w2 = Returned (6, true) w2).
Proof.
  intros f w'.
  destruct (DoLockedWithResult_returns_what_the_callback_returns
              f fresh_store w' (int_ 2) "key5" "key6" 5 6 (string_ "done"))
    as (Hrun & Hlater & w2 & Hrun2 & Hcur & Hk5 & Hk6).
  - ready_by_computation.
  - vm_compute. reflexivity.
  - split; [exact Hrun|]. split; [exact Hlater|].
    exists w2. split; [exact Hrun2|]. split; [exact Hcur|].
    split; [apply Hk5; reflexivity|apply Hk6; reflexivity].
Defined.

(** C3 as stated fails at a key that does not equal itself: after a
    callback that stores under NaN and under 2, the map holds two entries,
    [Load(2)] finds its value and [Load(NaN)] finds nothing. *)
Lemma Load_misses_a_NaN_stored_by_the_callback :
  ∃ w2,
    SyncMap.DoLockedWithResult
      (run (Call (mStore NaN 1) (λ _,
            Call (mStore (finite 2) 2) (λ _,
            Call mLen (λ n, Return (int_ n)))))) float_store
      = Returned (int_ 2) w2 ∧
    SyncMap.Load (finite 2) w2 = Returned (2, true) w2 ∧
    SyncMap.Load NaN w2 = Returned (0, false) w2 ∧
    SyncMap.Load NaN w2 ≠ Returned (1, true) w2.
Proof.
  eexists. split; [vm_compute; reflexivity|].
  split; [vm_compute; reflexivity|].
  split; [vm_compute; reflexivity|].
  vm_compute. discriminate.
Qed.

Lemma panic_in_callback_releases_the_lock_witness :
  let f : callback string Z unit :=
    Call (mStore "key1" 1) (λ _, PanicWith (string_ "boom")) in
  let g : callback string Z any :=
    Call (mRemove "key1") (λ _, PanicWith (int_ 7)) in
  let wf : world string Z :=
    mkWorld (mkSyncMap write_locked (ref 1%positive))
            {[ 1%positive := plain {[ "key1" := 1 ]} ]} in
  let wg : world string Z :=
    mkWorld (mkSyncMap write_locked (ref 1%positive))
            {[ 1%positive := ∅ ]} in
  SyncMap.DoLocked (run f) fresh_store
    = Panicked (Value (string_ "boom")) (with_Mu unlocked wf) ∧
  SyncMap.DoLockedWithResult (run g) fresh_store
    = Panicked (Value (int_ 7)) (with_Mu unlocked wg) ∧
  (∀ T (c : method string Z T),
     public c (with_Mu unlocked wf) = invoke lockedMap.view c (with_Mu unlocked wf) ∧
     completes (public c (with_Mu unlocked wf))) ∧
  (∀ T (c : method string Z T),
     public c (with_Mu unlocked wg) = invoke lockedMap.view c (with_Mu unlocked wg) ∧
     completes (public c (with_Mu unlocked wg))).
Proof.
  intros f g wf wg.
  apply (panic_in_callback_releases_the_lock f g fresh_store wf wg
           (Value (string_ "boom")) (Value (int_ 7))).
  - reflexivity.
  - vm_compute. reflexivity.
  - vm_compute. reflexivity.
Defined.

Lemma LoadOrStore_first_writer_wins_witness :
  (∃ w1, SyncMap.LoadOrStore "key1" 1 fresh_store = Returned (1, false) w1 ∧
         current w1 = <["key1" := 1]> (current fresh_store) ∧
         SyncMap.LoadOrStore "key1" 2 w1 = Returned (1, true) w1 ∧
         SyncMap.Load "key1" w1 = Returned (1, true) w1) ∧
  (SyncMap.LoadOrStore "key2" 99 two_keys = Returned (2, true) two_keys ∧
   SyncMap.Load "key2" two_keys = Returned (2, true) two_keys) ∧
  (∃ w1, SyncMap.LoadOrStore NaN 1 float_store = Returned (1, false) w1 ∧
         (∃ w2, SyncMap.LoadOrStore NaN 2 w1 = Returned (2, false) w2 ∧
                current w2 = <[NaN := 2]> (current w1)) ∧
         SyncMap.Load NaN w1 = Returned (zero_value, false) w1).
Proof.
  split; [|split].
  - destruct (LoadOrStore_first_writer_wins "key1" 1 2 fresh_store)
      as [Habsent _]; [ready_by_computation|].
    destruct Habsent as (w1 & Hrun & Hcur & Hsame & _);
      [vm_compute; reflexivity|].
    exists w1. split; [exact Hrun|]. split; [exact Hcur|].
    apply Hsame. reflexivity.
  - apply (LoadOrStore_first_writer_wins "key2" 1 99 two_keys).
    + ready_by_computation.
    + vm_compute. reflexivity.
  - destruct (LoadOrStore_first_writer_wins NaN 1 2 float_store)
      as [Habsent _]; [ready_by_computation|].
    destruct Habsent as (w1 & Hrun & _ & _ & Hnan);
      [vm_compute; reflexivity|].
    exists w1. split; [exact Hrun|]. apply Hnan. reflexivity.
Defined.

(** C5 as stated fails at a key that does not equal itself: after
    [LoadOrStore(NaN, 1)] the key is still absent for the next call, so
    [LoadOrStore(NaN, 2)] stores again and returns [(2, false)], the map
    holds two entries, and [Load(NaN)] finds neither. *)
Lemma LoadOrStore_of_NaN_stores_every_time :
  ∃ w1 w2,
    SyncMap.LoadOrStore NaN 1 float_store = Returned (1, false) w1 ∧
    SyncMap.LoadOrStore NaN 2 w1 = Returned (2, false) w2 ∧
    SyncMap.LoadOrStore NaN 2 w1 ≠ Returned (1, true) w1 ∧
    SyncMap.Len w2 = Returned 2 w2 ∧
    SyncMap.Load NaN w2 = Returned (0, false) w2.
Proof.
  eexists _, _. split; [vm_compute; reflexivity|].
  split; [vm_compute; reflexivity|].
  split; [vm_compute; discriminate|].
  split; vm_compute; reflexivity.
Qed.

Lemma LoadAndDelete_is_Load_then_Remove_witness :
  (SyncMap.LoadAndDelete "key2" two_keys =
     (let* r := SyncMap.Load "key2" in SyncMap.Remove "key2" ;; ret r) two_keys ∧
   ∃ w', SyncMap.LoadAndDelete "key2" two_keys = Returned (2, true) w' ∧
         current w' = delete "key2" (current two_keys) ∧
         SyncMap.Load "key2" w' = Returned (zero_value, false) w') ∧
  SyncMap.LoadAndDelete "key3" two_keys = Returned (zero_value, false) two_keys.
Proof.
  split.
  - apply (LoadAndDelete_is_Load_then_Remove "key2" two_keys).
    + ready_by_computation.
    + vm_compute. reflexivity.
  - apply (LoadAndDelete_is_Load_then_Remove "key3" two_keys).
    + ready_by_computation.
    + vm_compute. reflexivity.
Defined.

Lemma Map_returns_fresh_transformed_map_witness :
  ∃ l w', SyncMap.Map listed (λ _ v, v * 2) two_keys = Returned (ref l) w' ∧
          heap two_keys !! l = None ∧
          (∀ k, contents (heap w') (ref l) !! k
                = (λ v, v * 2) <$> current two_keys !! k) ∧
          dom (contents (heap w') (ref l)) = dom (current two_keys) ∧
          entries (contents (heap w') (ref l)) ≡ₚ
            (λ '(k, v), (k, v * 2)) <$> entries (current two_keys) ∧
          this w' = this two_keys ∧
          current w' = current two_keys ∧
          (∀ l', l' ≠ l → heap w' !! l' = heap two_keys !! l').
Proof.
  apply (Map_returns_fresh_transformed_map listed (λ _ v, v * 2) two_keys).
  ready_by_computation.
Defined.

Lemma Range_visits_each_entry_once_until_stopped_witness :
  (∃ log a',
     SyncMap.Range listed (logged sum_all) ([], 0) two_keys
       = Returned (log, a') two_keys ∧
     log.*1 ≡ₚ entries (current two_keys)) ∧
  (∃ log a',
     SyncMap.Range listed (logged first_only) ([], 0) two_keys
       = Returned (log, a') two_keys ∧
     (length log ≤ 1)%nat).
Proof.
  assert (Hready : ready two_keys) by ready_by_computation.
  split.
  - destruct (Range_visits_each_entry_once_until_stopped
                listed sum_all 0 two_keys 1 Hready)
      as (log & a' & Hrun & _ & _ & _ & Hall & _).
    exists log, a'. split; [exact Hrun|].
    apply Hall. intros k v s. reflexivity.
  - destruct (Range_visits_each_entry_once_until_stopped
                listed first_only 0 two_keys 1 Hready)
      as (log & a' & Hrun & _ & _ & _ & _ & Hstop).
    exists log, a'. split; [exact Hrun|].
    apply Hstop; [lia|].
    vm_compute in Hrun. injection Hrun as <- <-.
    eexists _, _. reflexivity.
Defined.

Lemma Purge_leaves_an_empty_mapping_witness :
  (∃ w', SyncMap.Purge two_keys = Returned tt w' ∧
         ready w' ∧
         Mu (this w') = Mu (this two_keys) ∧
         current w' = ∅ ∧
         SyncMap.Len w' = Returned 0 w' ∧
         (∀ k, SyncMap.Load k w' = Returned (zero_value, false) w') ∧
         indistinguishable w' (set_current ∅ two_keys) ∧
         (current two_keys = ∅ →
          current w' = current two_keys ∧ indistinguishable w' two_keys)) ∧
  (∃ w', SyncMap.Purge fresh_store = Returned tt w' ∧
         current w' = current fresh_store ∧
         indistinguishable w' fresh_store).
Proof.
  split.
  - apply (Purge_leaves_an_empty_mapping two_keys).
    ready_by_computation.
  - destruct (Purge_leaves_an_empty_mapping fresh_store)
      as (w' & Hrun & _ & _ & _ & _ & _ & _ & Hempty).
    + ready_by_computation.
    + exists w'. split; [exact Hrun|].
      apply Hempty. vm_compute. reflexivity.
Defined.

(** The store of the witnesses is the one the tests build. *)
Example two_keys_reached :
  (SyncMap.Store "key1" 1 ;; SyncMap.Store "key2" 2) fresh_store
  = Returned tt two_keys.
Proof. vm_compute. reflexivity. Qed.

(** The scenario of the specification, run on the model. *)
Example scenario :
  (SyncMap.Store "a" 1 ;;
   SyncMap.Store "b" 2 ;;
   let* r1 := SyncMap.LoadOrStore "a" 99 in
   let* r2 := SyncMap.Remove "b" in
   let* n := SyncMap.Len in
   let* mapped := SyncMap.Map listed (λ _ v, v * 10) in
   let* filtered := SyncMap.Filter listed (λ _ v, 0 <? v) in
   λ w, Returned (r1, r2, n, contents (heap w) mapped,
                  contents (heap w) filtered) w) fresh_store
  = Returned ((1, true), true, 1, plain {[ "a" := 10 ]}, plain {[ "a" := 1 ]})
      (mkWorld (mkSyncMap unlocked (ref 1%positive))
         {[ 1%positive := plain {[ "a" := 1 ]};
            2%positive := plain {[ "a" := 10 ]};
            3%positive := plain {[ "a" := 1 ]} ]}).
Proof. vm_compute. reflexivity. Qed.

(** The package's [Example] function, with the output its test expects. *)
Example package_example :
  (SyncMap.Store "apple" 5 ;;
   SyncMap.Store "banana" 3 ;;
   SyncMap.Store "cherry" 8 ;;
   let* banana := SyncMap.Load "banana" in
   let* date := SyncMap.LoadOrStore "date" 6 in
   let* apple := SyncMap.LoadOrStore "apple" 10 in
   SyncMap.Remove "cherry" ;;
   let* items := SyncMap.Len in
   let* doubled := SyncMap.Map listed (λ _ v, v * 2) in
   let* doubledMap := (λ w, Returned (contents (heap w) doubled) w) in
   let* filtered := SyncMap.Filter listed (λ _ v, 5 <=? v) in
   let* filteredMap := (λ w, Returned (contents (heap w) filtered) w) in
   let* deleted := SyncMap.LoadAndDelete "apple" in
   let* (printed, _) :=
     SyncMap.Range listed (logged (λ _ _ (_ : unit), (tt, true))) ([], tt) in
   SyncMap.DoLocked (run (
     Call (mStore "grape" 7) (λ _,
     Call (mStore "kiwi" 4) (λ _,
     Return tt)))) ;;
   let* result := SyncMap.DoLockedWithResult (run (
     Call mLen (λ n, Return (int_ n)))) in
   SyncMap.Purge ;;
   let* purged := SyncMap.Len in
   ret (banana, date, apple, items, doubledMap, filteredMap, deleted,
        (list_to_map printed.*1 : gmap string Z), result, purged)) fresh_store
  = Returned
      ((3, true), (6, false), (5, true), 3,
       plain {[ "apple" := 10; "banana" := 6; "date" := 12 ]},
       plain {[ "apple" := 5; "date" := 6 ]},
       (5, true),
       {[ "banana" := 3; "date" := 6 ]},
       int_ 4, 0)
      (mkWorld (mkSyncMap unlocked (ref 4%positive))
         {[ 1%positive := plain {[ "banana" := 3; "date" := 6; "grape" := 7; "kiwi" := 4 ]};
            2%positive := plain {[ "apple" := 10; "banana" := 6; "date" := 12 ]};
            3%positive := plain {[ "apple" := 5; "date" := 6 ]};
            4%positive := ∅ ]}).
Proof. vm_compute. reflexivity. Qed.

(** ** Further properties of the methods *)

Section extras.
Context {K : Type} `{Countable K} `{!GoComparable K} {V : Type} `{!GoZero V} `{!GoAny}.
Implicit Types (w : world K V) (d : gomap K V) (k : K) (v : V).

Lemma public_Filter it predicateFn w :
  Mu (this w) = unlocked →
  SyncMap.Filter it predicateFn w = lockedMap.Filter it predicateFn w.
Proof. apply (public_invoke (mFilter it predicateFn)). Qed.

Lemma enum_empty (it : iteration K V) : enum it ∅ = [].
Proof.
  apply Permutation_nil_r. rewrite (enum_perm it ∅). by rewrite gomap_entries_empty.
Qed.

Lemma length_enum (it : iteration K V) d : length (enum it d) = size d.
Proof. by rewrite (enum_perm it d). Qed.

Lemma ready_set_current d w :
  ready w → well_formed d → ready (set_current d w).
Proof.
  intros [Hmu Hw] Hd. split; [by rewrite this_set_current|].
  by apply constructed_set_current.
Qed.

Lemma ready_well_formed w : ready w → well_formed (current w).
Proof. intros [_ Hw]. by apply constructed_well_formed. Qed.

Lemma ready_Store k v w :
  ready w → ready (set_current (<[k := v]> (current w)) w).
Proof.
  intros Hw. apply ready_set_current; [done|].
  by apply well_formed_insert, ready_well_formed.
Qed.

Lemma ready_Remove k w :
  ready w → ready (set_current (delete k (current w)) w).
Proof.
  intros Hw. apply ready_set_current; [done|].
  by apply well_formed_delete, ready_well_formed.
Qed.


(** X2.  On a ready store, [Remove(k)] returns whether [k] was present and
    leaves the mapping without [k] and otherwise as it was; when [k] was
    absent the world is unchanged.  After it, [Load(k)] finds nothing and a
    second [Remove(k)] returns [false]. *)
Theorem Remove_reports_presence (k : K) (w : world K V) :
  ready w →
  ∃ w', SyncMap.Remove k w = Returned (bool_decide (is_Some (current w !! k))) w' ∧
        ready w' ∧
        current w' = delete k (current w) ∧
        (current w !! k = None → w' = w) ∧
        SyncMap.Load k w' = Returned (zero_value, false) w' ∧
        SyncMap.Remove k w' = Returned false w'.
Proof.
  intros Hw. pose proof Hw as [Hmu Hc].
  pose proof (constructed_not_nil w Hc) as Hnil.
  assert (Habsent : ∀ w0, ready w0 → current w0 !! k = None →
    SyncMap.Load k w0 = Returned (zero_value, false) w0 ∧
    SyncMap.Remove k w0 = Returned false w0).
  { intros w0 [Hmu0 _] Hk.
    rewrite public_Load, public_Remove, Remove_spec, Hk by by rewrite ?Hmu0.
    done. }
  rewrite public_Remove, Remove_spec by done.
  destruct (current w !! k) as [v|] eqn:Hk.
  - exists (set_current (delete k (current w)) w).
    rewrite bool_decide_true by eauto.
    split; [done|]. split; [by apply ready_Remove|].
    rewrite current_set_current by done.
    split; [done|]. split; [done|].
    apply Habsent; [by apply ready_Remove|].
    by rewrite current_set_current, gomap_lookup_delete_eq.
  - exists w. rewrite bool_decide_false by by intros [??].
    split; [done|]. split; [done|]. split; [by rewrite gomap_delete_id|].
    split; [done|]. by apply Habsent.
Qed.

(** X3.  On a ready store, [Len] returns the number of entries of the
    mapping.  After [Store(k, v)] it returns one more if [Load(k)] found
    nothing and the same otherwise; after [Remove(k)] it returns one less
    if [Load(k)] found a value and the same otherwise. *)
Theorem Len_counts_entries (k : K) (v : V) (w : world K V) :
  ready w →
  ∃ n v0 present w1 b w2,
    SyncMap.Len w = Returned n w ∧
    n = Z.of_nat (size (current w)) ∧
    SyncMap.Load k w = Returned (v0, present) w ∧
    SyncMap.Store k v w = Returned tt w1 ∧
    SyncMap.Len w1 = Returned (if present then n else n + 1) w1 ∧
    SyncMap.Remove k w = Returned b w2 ∧
    SyncMap.Len w2 = Returned (if present then n - 1 else n) w2.
Proof.
  intros Hw. pose proof Hw as [Hmu Hc].
  pose proof (constructed_not_nil w Hc) as Hnil.
  assert (HLen : ∀ w0, ready w0 →
    SyncMap.Len w0 = Returned (Z.of_nat (size (current w0))) w0).
  { intros w0 [Hmu0 _]. by rewrite public_Len, Len_spec. }
  rewrite HLen, public_Load, public_Store, Store_spec, public_Remove, Remove_spec
    by by rewrite ?Hmu.
  destruct (current w !! k) as [v0|] eqn:Hk; simpl.
  - exists (Z.of_nat (size (current w))), v0, true,
      (set_current (<[k := v]> (current w)) w), true,
      (set_current (delete k (current w)) w).
    do 4 (split; [done|]).
    rewrite !HLen by (by apply ready_Store || by apply ready_Remove).
    rewrite !current_set_current by done.
    rewrite gomap_size_insert, gomap_size_delete, Hk.
    split; [done|]. split; [done|]. do 2 f_equal.
    pose proof (gomap_size_lookup _ _ _ Hk).
    lia.
  - exists (Z.of_nat (size (current w))), zero_value, false,
      (set_current (<[k := v]> (current w)) w), false, w.
    do 4 (split; [done|]).
    rewrite !HLen by (done || by apply ready_Store).
    rewrite !current_set_current by done.
    rewrite gomap_size_insert, Hk.
    split; [|done]. do 2 f_equal. lia.
Qed.

(** X4.  Whatever the size hint, the store that [New] returns is ready and
    empty: [Len] returns 0, [Load] finds no key and [Range] returns without
    calling its visitor.  The map objects that existed are untouched. *)
Theorem New_makes_an_empty_ready_store
    {A} (size : Z) (h : gmap loc (gomap K V)) (k : K)
    (it : iteration K V) (f : visitor K V A) (a : A) :
  ready (SyncMap.New size h) ∧
  SyncMap.Len (SyncMap.New size h) = Returned 0 (SyncMap.New size h) ∧
  SyncMap.Load k (SyncMap.New size h)
    = Returned (zero_value, false) (SyncMap.New size h) ∧
  SyncMap.Range it (logged f) ([], a) (SyncMap.New size h)
    = Returned ([], a) (SyncMap.New size h) ∧
  (∀ l, is_Some (h !! l) → heap (SyncMap.New size h) !! l = h !! l).
Proof.
  pose proof (New_ready size h) as Hw. pose proof Hw as [Hmu Hc].
  split; [done|].
  rewrite public_Len, Len_spec, public_Load, public_Range, Range_spec
    by by rewrite ?Hmu.
  rewrite New_empty, enum_empty, gomap_size_empty, gomap_lookup_empty. simpl.
  do 3 (split; [done|]).
  intros l Hl. unfold SyncMap.New. simpl. rewrite lookup_insert_ne; [done|].
  intros <-. rewrite fresh_loc_unused in Hl. by destruct Hl.
Qed.
Lemma set_current_twice d d' w :
  set_current d (set_current d' w) = set_current d w.
Proof.
  unfold set_current. destruct w as [[mu [|l]] h]; simpl; [done|].
  by rewrite insert_insert_eq.
Qed.

Lemma public_Store_ready k v w :
  ready w →
  SyncMap.Store k v w = Returned tt (set_current (<[k := v]> (current w)) w).
Proof.
  intros [Hmu Hc]. rewrite public_Store, Store_spec; [done| |done].
  by apply constructed_not_nil.
Qed.

Lemma not_found_absent k w :
  writer (Mu (this w)) = false →
  SyncMap.Load k w = Returned (zero_value, false) w → current w !! k = None.
Proof.
  intros Hmu. rewrite public_Load by done.
  by destruct (current w !! k).
Qed.

(** X5.  On a ready store a [Store] to [k] does not change what [Load]
    returns for another key, and [Store(k, v1)] then [Store(k', v2)] leaves
    the mapping with both entries.  If [k] equals itself the last [Store]
    to it wins: [Store(k, v2)] after [Store(k, v1)] leaves the world that
    [Store(k, v2)] alone leaves; if it does not (a NaN), the second [Store]
    adds a second entry.  Two [Store]s to different keys of which one
    equals itself leave the same world in either order. *)
Theorem Store_overwrites_and_commutes (k k' : K) (v1 v2 : V) (w : world K V) :
  ready w →
  k ≠ k' →
  ∃ w1 w2 w12,
    SyncMap.Store k v1 w = Returned tt w1 ∧
    SyncMap.Store k v2 w = Returned tt w2 ∧
    (self_equal k = true → SyncMap.Store k v2 w1 = Returned tt w2) ∧
    (self_equal k = false →
     ∃ w3, SyncMap.Store k v2 w1 = Returned tt w3 ∧
           SyncMap.Len w3 = Returned (Z.of_nat (size (current w)) + 2) w3) ∧
    (∀ r, SyncMap.Load k' w = Returned r w → SyncMap.Load k' w1 = Returned r w1) ∧
    (SyncMap.Store k v1 ;; SyncMap.Store k' v2) w = Returned tt w12 ∧
    current w12 = <[k' := v2]> (<[k := v1]> (current w)) ∧
    (self_equal k = true ∨ self_equal k' = true →
     (SyncMap.Store k' v2 ;; SyncMap.Store k v1) w = Returned tt w12).
Proof.
  intros Hw Hne. pose proof Hw as [Hmu Hc].
  pose proof (constructed_not_nil w Hc) as Hnil.
  pose proof (constructed_well_formed w Hc) as Hwf.
  assert (Hagain : ∀ k0 v0 d0, well_formed d0 →
    SyncMap.Store k0 v0 (set_current d0 w)
    = Returned tt (set_current (<[k0 := v0]> d0) w)).
  { intros k0 v0 d0 Hd0.
    rewrite public_Store_ready by by apply ready_set_current.
    by rewrite current_set_current, set_current_twice. }
  exists (set_current (<[k := v1]> (current w)) w),
         (set_current (<[k := v2]> (current w)) w),
         (set_current (<[k' := v2]> (<[k := v1]> (current w))) w).
  unfold bind.
  rewrite (public_Store_ready k v1 w), (public_Store_ready k v2 w),
    (public_Store_ready k' v2 w) by done.
  rewrite !Hagain by by apply well_formed_insert.
  split; [done|]. split; [done|].
  split; [by intros Hk; rewrite gomap_insert_insert_eq|].
  split; [|split; [|split; [done|split]]].
  - intros Hk. eexists. split; [done|].
    assert (Hw3 : ready (set_current (<[k := v2]> (<[k := v1]> (current w))) w)).
    { apply ready_set_current; [done|]. by do 2 apply well_formed_insert. }
    rewrite public_Len, Len_spec by by destruct Hw3.
    rewrite current_set_current by done.
    rewrite !gomap_size_insert, !gomap_lookup_unequal by done.
    do 2 f_equal. lia.
  - intros r. rewrite !public_Load by by rewrite ?this_set_current, Hmu.
    rewrite current_set_current, gomap_lookup_insert_ne by done.
    by intros [= <-].
  - by rewrite current_set_current.
  - intros [Hk|Hk'].
    + by rewrite (gomap_insert_insert_ne _ k k').
    + by rewrite (gomap_insert_insert_ne _ k' k).
Qed.

(** X6.  On a ready store in which [Load(k)] finds nothing, for a key [k]
    that equals itself, [Store(k, v)], [Load(k)], [Remove(k)] in a row
    return nothing, [(v, true)] and [true], and leave the world exactly as
    it was. *)
Theorem Store_Load_Remove_restores (k : K) (v : V) (w : world K V) :
  ready w →
  self_equal k = true →
  SyncMap.Load k w = Returned (zero_value, false) w →
  (SyncMap.Store k v ;;
   let* r := SyncMap.Load k in
   let* removed := SyncMap.Remove k in
   ret (r, removed)) w = Returned ((v, true), true) w.
Proof.
  intros Hw Hse Hload. pose proof Hw as [Hmu Hc].
  pose proof (constructed_not_nil w Hc) as Hnil.
  apply not_found_absent in Hload; [|by rewrite Hmu].
  unfold bind. rewrite public_Store_ready by done.
  rewrite public_Load by by rewrite this_set_current, Hmu.
  rewrite public_Remove, Remove_spec by by rewrite this_set_current.
  rewrite current_set_current, gomap_lookup_insert_eq by done. simpl.
  rewrite set_current_twice, gomap_delete_insert_id by done.
  by rewrite set_current_current.
Qed.

(** X7.  On a ready store [LoadOrStore(k, v)] has the outcome of [Load(k)]
    followed, when nothing is found, by [Store(k, v)]. *)
Theorem LoadOrStore_is_Load_then_Store_if_absent (k : K) (v : V) (w : world K V) :
  ready w →
  SyncMap.LoadOrStore k v w =
  (let* (v0, ok) := SyncMap.Load k in
   if ok then ret (v0, true)
   else SyncMap.Store k v ;; ret (v, false)) w.
Proof.
  intros Hw. pose proof Hw as [Hmu Hc].
  pose proof (constructed_not_nil w Hc) as Hnil.
  rewrite public_LoadOrStore, LoadOrStore_spec by done.
  unfold bind at 1. rewrite public_Load by by rewrite Hmu.
  destruct (current w !! k) as [v0|]; simpl; [done|].
  unfold bind. by rewrite public_Store_ready.
Qed.

Lemma visit_count_calls entries (a : Z) :
  visit entries (count_calls (K:=K) (V:=V)) a = a + Z.of_nat (length entries).
Proof.
  revert a. induction entries as [|[k v] rest IH]; intros a; simpl; [lia|].
  rewrite IH. lia.
Qed.

(** X8.  On a ready store, whatever the order of the loop, [Range] with a
    visitor that counts its calls and never stops returns what [Len]
    returns. *)
Theorem Range_counts_what_Len_returns (it : iteration K V) (w : world K V) :
  ready w →
  ∃ n, SyncMap.Len w = Returned n w ∧
       SyncMap.Range it count_calls 0 w = Returned n w.
Proof.
  intros [Hmu Hc].
  rewrite public_Len, Len_spec, public_Range, Range_spec by done.
  eexists. split; [done|].
  by rewrite visit_count_calls, length_enum.
Qed.

(** X9.  On a ready store the outcome of [Map] and of [Filter] does not
    depend on the order in which the runtime yields the entries: in
    whichever order, the world is left the same but for the map returned,
    which is found by the same reference and holds the same value at every
    key and the same entries.  When every key of the store equals itself,
    the two outcomes are the same, the map returned included. *)
Theorem Map_and_Filter_ignore_the_iteration_order
    (it1 it2 : iteration K V) (mapFn : K → V → V) (predicateFn : K → V → bool)
    (w : world K V) :
  ready w →
  (hidden (current w) = [] →
   SyncMap.Map it1 mapFn w = SyncMap.Map it2 mapFn w ∧
   SyncMap.Filter it1 predicateFn w = SyncMap.Filter it2 predicateFn w) ∧
  (∃ l w1 w2,
     SyncMap.Map it1 mapFn w = Returned (ref l) w1 ∧
     SyncMap.Map it2 mapFn w = Returned (ref l) w2 ∧
     (∀ k, contents (heap w1) (ref l) !! k = contents (heap w2) (ref l) !! k) ∧
     entries (contents (heap w1) (ref l)) ≡ₚ entries (contents (heap w2) (ref l)) ∧
     this w1 = this w2 ∧
     (∀ l', l' ≠ l → heap w1 !! l' = heap w2 !! l')) ∧
  (∃ l w1 w2,
     SyncMap.Filter it1 predicateFn w = Returned (ref l) w1 ∧
     SyncMap.Filter it2 predicateFn w = Returned (ref l) w2 ∧
     (∀ k, contents (heap w1) (ref l) !! k = contents (heap w2) (ref l) !! k) ∧
     entries (contents (heap w1) (ref l)) ≡ₚ entries (contents (heap w2) (ref l)) ∧
     this w1 = this w2 ∧
     (∀ l', l' ≠ l → heap w1 !! l' = heap w2 !! l')).
Proof.
  intros [Hmu Hc]. pose proof (constructed_well_formed w Hc) as Hwf.
  rewrite !public_Map, !public_Filter, !Map_spec, !Filter_spec by done.
  assert (Hsame : ∀ e,
    (∀ k, contents (heap (alloc (gather e (enum it1 (current w)) ∅) w))
            (ref (fresh (dom (heap w)))) !! k =
          contents (heap (alloc (gather e (enum it2 (current w)) ∅) w))
            (ref (fresh (dom (heap w)))) !! k) ∧
    entries (contents (heap (alloc (gather e (enum it1 (current w)) ∅) w))
               (ref (fresh (dom (heap w))))) ≡ₚ
    entries (contents (heap (alloc (gather e (enum it2 (current w)) ∅) w))
               (ref (fresh (dom (heap w))))) ∧
    this (alloc (gather e (enum it1 (current w)) ∅) w) =
    this (alloc (gather e (enum it2 (current w)) ∅) w) ∧
    (∀ l', l' ≠ fresh (dom (heap w)) →
           heap (alloc (gather e (enum it1 (current w)) ∅) w) !! l' =
           heap (alloc (gather e (enum it2 (current w)) ∅) w) !! l')).
  { intros e. unfold alloc. simpl. rewrite !lookup_insert_eq. simpl.
    split; [|split; [|split; [done|]]].
    - intros k. by rewrite !gather_enum_lookup.
    - by rewrite !gather_enum_entries.
    - intros l' Hne. by rewrite !lookup_insert_ne. }
  split; [|split].
  - intros Hh.
    by rewrite (gather_enum_plain _ it1 it2), (gather_enum_plain (keep _) it1 it2).
  - eexists _, _, _. split; [done|]. split; [done|]. apply Hsame.
  - eexists _, _, _. split; [done|]. split; [done|]. apply Hsame.
Qed.

Lemma Lock_write_locks w :
  Mu (this w) = unlocked → Lock w = Returned tt (with_Mu write_locked w).
Proof. intros Hmu. unfold Lock. by rewrite Hmu. Qed.

Lemma Lock_blocks_under_lock w :
  Lock (with_Mu write_locked w) = Halted blocked_on_lock.
Proof. done. Qed.

(** X10.  The lock is not reentrant.  On a store whose mutex is free, a
    callback of [DoLocked] or [DoLockedWithResult] that calls a public
    method of the store, or [DoLocked] again, never returns: the call
    inside waits for the lock that the call outside holds. *)
Theorem calling_the_store_from_a_callback_deadlocks
    {T} (c : method K V T) (g : LockedMap K V → M K V unit) (r : any)
    (w : world K V) :
  Mu (this w) = unlocked →
  SyncMap.DoLocked (λ _, public c ;; ret tt) w = Halted blocked_on_lock ∧
  SyncMap.DoLockedWithResult (λ _, public c ;; ret r) w = Halted blocked_on_lock ∧
  SyncMap.DoLocked (λ _, SyncMap.DoLocked g) w = Halted blocked_on_lock.
Proof.
  intros Hmu.
  unfold SyncMap.DoLockedWithResult, SyncMap.DoLocked at 1 2.
  unfold bind at 1 3 5. rewrite Lock_write_locks by done.
  unfold defer, bind. rewrite public_blocks_under_lock.
  do 2 (split; [done|]).
  unfold SyncMap.DoLocked, bind. by rewrite Lock_blocks_under_lock.
Qed.

(** X11.  The zero value of the struct ([Data] is a nil map, the mutex is
    free) can be read but not written: [Load], [LoadAndDelete], [Remove],
    [Len] and [Range] behave as on an empty store and leave the world as it
    was; [Store] and [LoadOrStore] panic with "assignment to entry in nil
    map", the lock released and the world as it was.  After [Purge] the
    store is ready and [Store] works: the [Load] that follows finds the
    value if the key equals itself. *)
Theorem zero_value_store_reads_but_does_not_write
    {A} (k : K) (v : V) (it : iteration K V) (f : visitor K V A) (a : A)
    (w : world K V) :
  Mu (this w) = unlocked →
  Data (this w) = nil_map →
  SyncMap.Load k w = Returned (zero_value, false) w ∧
  SyncMap.LoadAndDelete k w = Returned (zero_value, false) w ∧
  SyncMap.Remove k w = Returned false w ∧
  SyncMap.Len w = Returned 0 w ∧
  SyncMap.Range it (logged f) ([], a) w = Returned ([], a) w ∧
  SyncMap.Store k v w
    = Panicked (RuntimeError assignment_to_entry_in_nil_map) w ∧
  SyncMap.LoadOrStore k v w
    = Panicked (RuntimeError assignment_to_entry_in_nil_map) w ∧
  ∃ w1 w2, SyncMap.Purge w = Returned tt w1 ∧
           ready w1 ∧
           SyncMap.Store k v w1 = Returned tt w2 ∧
           SyncMap.Load k w2 =
             Returned (if self_equal k then (v, true) else (zero_value, false)) w2.
Proof.
  intros Hmu Hnil.
  assert (Hcur : current w = ∅) by (unfold current; by rewrite Hnil).
  rewrite public_Load, public_LoadAndDelete, LoadAndDelete_spec,
    public_Remove, Remove_spec, public_Len, Len_spec, public_Range,
    Range_spec, public_Store, Store_nil, public_LoadOrStore,
    public_Purge, Purge_spec by by rewrite ?Hmu.
  rewrite Hcur, enum_empty, gomap_lookup_empty, gomap_size_empty. simpl.
  do 6 (split; [done|]). split.
  { unfold lockedMap.LoadOrStore, bind, get_Data, map_index, map_assign.
    rewrite Hnil. simpl. by rewrite gomap_lookup_empty. }
  set (w1 := mkWorld _ _).
  assert (Hw1 : ready w1).
  { split; [done|]. unfold constructed. simpl. rewrite lookup_insert_eq.
    exists ∅. split; [done|]. apply well_formed_empty. }
  exists w1, (set_current (<[k := v]> (current w1)) w1).
  split; [done|]. split; [exact Hw1|].
  rewrite public_Store_ready by exact Hw1. split; [done|].
  rewrite public_Load by (rewrite this_set_current; simpl; by rewrite Hmu).
  rewrite current_set_current by by apply constructed_not_nil, Hw1.
  destruct (self_equal k) eqn:Hk.
  - by rewrite gomap_lookup_insert_eq.
  - by rewrite gomap_lookup_unequal.
Qed.

Lemma run_then_ {R} (f : callback K V unit) (g : callback K V R) lm w :
  run (then_ f g) lm w = (run f lm ;; run g lm) w.
Proof.
  revert w. induction f as [[]|v|T c next IH]; intros w; simpl; [done..|].
  unfold bind at 1 2 3.
  destruct (invoke lm c w) as [t w'|p w'|why]; [|done..].
  apply IH.
Qed.

(** X12.  On a store whose mutex is free, one [DoLocked] whose callback
    makes the calls of [f] and then those of [g] has the outcome of
    [DoLocked(f)] followed by [DoLocked(g)]: the same world, or the same
    panic of [f] or [g], the lock released. *)
Theorem DoLocked_of_a_sequence_is_the_sequence_of_DoLocked
    (f g : callback K V unit) (w : world K V) :
  Mu (this w) = unlocked →
  SyncMap.DoLocked (run (then_ f g)) w =
  (SyncMap.DoLocked (run f) ;; SyncMap.DoLocked (run g)) w.
Proof.
  intros Hmu. unfold bind.
  rewrite !DoLocked_runs_callback by auto using mu_blind_run.
  rewrite run_then_. unfold bind.
  pose proof (mu_blind_frame (run f lockedMap.view) w (mu_blind_run f)) as Hframe.
  destruct (run f lockedMap.view w) as [[] w1|p w1|why]; [|done..].
  rewrite DoLocked_runs_callback; [done| |apply mu_blind_run].
  simpl in Hframe. injection Hframe as Hw1. by rewrite <-Hw1, Hmu.
Qed.

(** X13.  While other goroutines hold the lock in shared mode, the methods
    that read ([Load], [Len], [Range], [Map], [Filter]) run as on the view
    and return, leaving the readers as they were; the methods that write
    ([Store], [LoadOrStore], [LoadAndDelete], [Remove], [Purge]) and
    [DoLocked] wait. *)
Theorem readers_share_the_lock_and_writers_wait
    {T} (c : method K V T) (f : LockedMap K V → M K V unit) (w : world K V) :
  writer (Mu (this w)) = false →
  (0 < readers (Mu (this w)))%nat →
  public c w =
    (if reads c then invoke lockedMap.view c w else Halted blocked_on_lock) ∧
  SyncMap.DoLocked f w = Halted blocked_on_lock.
Proof.
  intros Hwr Hrd.
  assert (Hlock : Lock w = Halted blocked_on_lock).
  { unfold Lock. rewrite Hwr. destruct (readers (Mu (this w))); [lia|done]. }
  split; [|by unfold SyncMap.DoLocked, bind; rewrite Hlock].
  destruct c; simpl;
    unfold SyncMap.Load, SyncMap.LoadOrStore, SyncMap.Store,
      SyncMap.LoadAndDelete, SyncMap.Remove, SyncMap.Purge,
      SyncMap.Range, SyncMap.Map, SyncMap.Len;
    try (by unfold bind at 1; rewrite Hlock);
    try (apply read_locked_section; [done|];
         first [apply (mu_blind_invoke (mLoad key))
               |apply (mu_blind_invoke (mRange it f0 a))
               |apply (mu_blind_invoke (mMap it mapFn))
               |apply (mu_blind_invoke mLen)]).
  unfold SyncMap.Filter, lockedMap.Filter. rewrite !bind_make_map.
  apply read_locked_section; [done|].
  apply mu_blind_bind; [done|intros].
  apply mu_blind_bind; [|intros; apply mu_blind_ret].
  apply mu_blind_range_map. intros k v [].
  destruct (predicateFn k v); [|apply mu_blind_ret].
  apply mu_blind_bind; [apply mu_blind_map_assign|intros; apply mu_blind_ret].
Qed.
(** X14.  On a ready store every sequence of public calls returns and
    leaves a ready store, whose mapping is the one obtained from the
    mapping at the start by the assignments, [delete]s and emptying of a Go
    map that the calls stand for: the store behaves as a plain [map[K]V],
    also at keys that do not equal themselves, where each [Store] adds an
    entry. *)
Theorem public_calls_act_as_on_a_plain_map (ops : list (op K V)) (w : world K V) :
  ready w →
  ∃ w', history ops w = Returned tt w' ∧
        ready w' ∧
        current w' = foldl (λ d o, effect_of o d) (current w) ops.
Proof.
  revert w. induction ops as [|[T c] rest IH]; intros w Hw; [by exists w|].
  destruct (public_effect c w Hw) as (t & w1 & Hc & Hw1 & Hcur).
  destruct (IH w1 Hw1) as (w' & Hrest & Hw' & Hcur').
  exists w'. simpl. unfold bind. rewrite Hc.
  split; [done|]. split; [done|]. by rewrite Hcur', Hcur.
Qed.

Lemma heap_set_current l d w :
  ref l ≠ Data (this w) → heap (set_current d w) !! l = heap w !! l.
Proof.
  unfold set_current. destruct (Data (this w)) as [|l0]; [done|].
  intros Hne. simpl. rewrite lookup_insert_ne; congruence.
Qed.

Lemma heap_insert_fresh l d (h : gmap loc (gomap K V)) :
  is_Some (h !! l) → <[fresh (dom h) := d]> h !! l = h !! l.
Proof.
  intros Hl. rewrite lookup_insert_ne; [done|].
  intros <-. rewrite fresh_loc_unused in Hl. by destruct Hl.
Qed.

(** A method of the view only writes to the object [Data] refers to and
    to the objects it makes. *)
Lemma invoke_frame {T} (c : method K V T) w t w' :
  constructed w →
  invoke lockedMap.view c w = Returned t w' →
  ∀ l, is_Some (heap w !! l) → ref l ≠ Data (this w) →
       heap w' !! l = heap w !! l.
Proof.
  intros Hw Hrun l Hl Hne.
  pose proof (constructed_not_nil w Hw) as Hnil.
  destruct c; simpl in Hrun.
  - rewrite Load_spec in Hrun. by simplify_eq.
  - rewrite LoadOrStore_spec in Hrun by done.
    destruct (current w !! key); simplify_eq; [done|].
    by apply heap_set_current.
  - rewrite Store_spec in Hrun by done. simplify_eq.
    by apply heap_set_current.
  - rewrite LoadAndDelete_spec in Hrun.
    destruct (current w !! key); simplify_eq; [|done].
    by apply heap_set_current.
  - rewrite Remove_spec in Hrun.
    destruct (current w !! k); simplify_eq; [|done].
    by apply heap_set_current.
  - rewrite Purge_spec in Hrun. simplify_eq. simpl.
    by apply heap_insert_fresh.
  - rewrite Range_spec in Hrun. by simplify_eq.
  - rewrite Filter_spec in Hrun by done. simplify_eq.
    by apply heap_insert_fresh.
  - rewrite Map_spec in Hrun by done. simplify_eq.
    by apply heap_insert_fresh.
  - rewrite Len_spec in Hrun. by simplify_eq.
Qed.

Lemma fresh_is_not_Data d w :
  constructed w →
  ref (fresh (dom (heap w))) ≠ Data (this (alloc d w)).
Proof.
  unfold constructed. simpl. destruct (Data (this w)) as [|l0]; [done|].
  intros Hl [= <-]. rewrite fresh_loc_unused in Hl. by destruct Hl as (? & ? & _).
Qed.

(** X15.  On a ready store a public call changes no map object other
    than the one [Data] refers to.  So the map that [Map] or [Filter]
    returned is not changed by any later public call: it is independent of
    the store. *)
Theorem maps_returned_are_independent_of_the_store
    {T} (it : iteration K V) (mapFn : K → V → V) (predicateFn : K → V → bool)
    (c : method K V T) (w : world K V) :
  ready w →
  (∃ t w', public c w = Returned t w' ∧
           ∀ l, is_Some (heap w !! l) → ref l ≠ Data (this w) →
                heap w' !! l = heap w !! l) ∧
  (∃ l w1 t w2, SyncMap.Map it mapFn w = Returned (ref l) w1 ∧
                public c w1 = Returned t w2 ∧
                heap w2 !! l = heap w1 !! l) ∧
  (∃ l w1 t w2, SyncMap.Filter it predicateFn w = Returned (ref l) w1 ∧
                public c w1 = Returned t w2 ∧
                heap w2 !! l = heap w1 !! l).
Proof.
  intros Hw.
  assert (Hframe : ∀ w0, ready w0 →
    ∃ t w', public c w0 = Returned t w' ∧
            ∀ l, is_Some (heap w0 !! l) → ref l ≠ Data (this w0) →
                 heap w' !! l = heap w0 !! l).
  { intros w0 [Hmu0 Hc0].
    destruct (invoke_effect c w0 Hc0) as (t & w' & Hrun & _).
    exists t, w'. rewrite public_invoke by done. split; [done|].
    by apply (invoke_frame c w0 t w'). }
  split; [by apply Hframe|].
  destruct Hw as [Hmu Hc].
  assert (Hafter : ∀ d,
    ∃ t w2, public c (alloc d w) = Returned t w2 ∧
            heap w2 !! fresh (dom (heap w)) = heap (alloc d w) !! fresh (dom (heap w))).
  { intros d. destruct (Hframe (alloc d w)) as (t & w2 & Hrun & Hsame).
    { split; [done|by apply constructed_alloc]. }
    exists t, w2. split; [done|]. apply Hsame.
    - unfold alloc. simpl. rewrite lookup_insert_eq. eauto.
    - by apply fresh_is_not_Data. }
  split.
  - rewrite public_Map, Map_spec by done.
    destruct (Hafter (gather (λ k v, Some (mapFn k v)) (enum it (current w)) ∅))
      as (t & w2 & Hrun & Hsame).
    by eexists _, _, t, w2.
  - rewrite public_Filter, Filter_spec by done.
    destruct (Hafter (gather (keep predicateFn) (enum it (current w)) ∅))
      as (t & w2 & Hrun & Hsame).
    by eexists _, _, t, w2.
Qed.

(** X18.  A key that does not equal itself (a NaN) is stored but never
    found.  On a ready store, for such a key [k]: [Load], [LoadAndDelete]
    and [Remove] find nothing and leave the world as it was; [Store(k, v)]
    and [LoadOrStore(k, v)] both add the entry [(k, v)] to those the map
    holds, whatever entries under [k] it holds already, and [LoadOrStore]
    returns [(v, false)]; after it [Len] returns one more, [Range] visits the
    entry, [Remove(k)] still returns [false] and changes nothing, and
    [Purge] empties the map. *)
Theorem keys_unequal_to_themselves_are_stored_but_never_found
    (k : K) (v : V) (it : iteration K V) (w : world K V) :
  ready w →
  self_equal k = false →
  SyncMap.Load k w = Returned (zero_value, false) w ∧
  SyncMap.LoadAndDelete k w = Returned (zero_value, false) w ∧
  SyncMap.Remove k w = Returned false w ∧
  ∃ w1, SyncMap.Store k v w = Returned tt w1 ∧
        SyncMap.LoadOrStore k v w = Returned (v, false) w1 ∧
        ready w1 ∧
        entries (current w1) = entries (current w) ++ [(k, v)] ∧
        SyncMap.Len w1 = Returned (Z.of_nat (size (current w)) + 1) w1 ∧
        (∃ log, SyncMap.Range it (logged (λ _ _ (_ : unit), (tt, true))) ([], tt) w1
                  = Returned (log, tt) w1 ∧
                (k, v) ∈ log.*1) ∧
        SyncMap.Load k w1 = Returned (zero_value, false) w1 ∧
        SyncMap.Remove k w1 = Returned false w1 ∧
        ∃ w2, SyncMap.Purge w1 = Returned tt w2 ∧ current w2 = ∅.
Proof.
  intros Hw Hk.
  assert (Hmiss : ∀ w0, ready w0 →
    SyncMap.Load k w0 = Returned (zero_value, false) w0 ∧
    SyncMap.LoadAndDelete k w0 = Returned (zero_value, false) w0 ∧
    SyncMap.Remove k w0 = Returned false w0).
  { intros w0 [Hmu0 Hc0].
    rewrite public_Load, public_LoadAndDelete, LoadAndDelete_spec,
      public_Remove, Remove_spec by by rewrite ?Hmu0.
    by rewrite gomap_lookup_unequal. }
  destruct (Hmiss w Hw) as (Hload & Hlad & Hrem).
  do 3 (split; [done|]).
  pose proof Hw as [Hmu Hc].
  pose proof (constructed_not_nil w Hc) as Hnil.
  pose proof (ready_Store k v w Hw) as Hw1.
  exists (set_current (<[k := v]> (current w)) w).
  split; [by apply public_Store_ready|].
  split.
  { rewrite public_LoadOrStore, LoadOrStore_spec by done.
    by rewrite gomap_lookup_unequal. }
  split; [done|].
  assert (Hentries :
    entries (current (set_current (<[k := v]> (current w)) w))
    = entries (current w) ++ [(k, v)]).
  { rewrite current_set_current, gomap_insert_unfold, Hk by done.
    unfold entries. simpl. by rewrite app_assoc. }
  split; [done|].
  destruct (Hmiss _ Hw1) as (Hload1 & _ & Hrem1).
  split; [|split; [|split; [done|split; [done|]]]].
  - rewrite public_Len, Len_spec by by destruct Hw1.
    rewrite current_set_current, gomap_size_insert, gomap_lookup_unequal by done.
    do 2 f_equal. lia.
  - rewrite public_Range, Range_spec, visit_logged by by destruct Hw1.
    simpl. eexists. split.
    + f_equal. f_equal.
      by destruct (visit _ (λ _ _ (_ : unit), (tt, true)) tt).
    + rewrite trace_all by done.
      rewrite (enum_perm it _), Hentries.
      apply elem_of_app. right. apply list_elem_of_here.
  - destruct (public_effect mPurge _ Hw1) as ([] & w2 & Hrun & _ & Hcur).
    by exists w2.
Qed.
End extras.

(** ** The helpers of the tests decide equality *)

Section test_helper_properties.
Context {K : Type} `{Countable K} {V : Type} `{!GoZero V} `{EqDecision V}.

Lemma mapsEqual_loop_true (entries : list (K * V)) (m2 : gmap K V) :
  mapsEqual_loop entries m2 = true ↔
  ∀ k v, (k, v) ∈ entries → m2 !! k = Some v.
Proof.
  induction entries as [|[k v1] rest IH]; simpl.
  - split; [|done]. intros _ k v Hin. by apply elem_of_nil in Hin.
  - destruct (m2 !! k) as [v2|] eqn:Hk; simpl.
    + destruct (bool_decide_reflect (v1 = v2)) as [->|Hne]; simpl.
      * rewrite IH. split.
        -- intros Hrest k' v' [[= -> ->]|Hin]%elem_of_cons; eauto.
        -- intros Hall k' v' Hin. apply Hall. by right.
      * split; [done|]. intros Hall.
        specialize (Hall k v1 (list_elem_of_here _ _)). congruence.
    + split; [done|]. intros Hall.
      specialize (Hall k v1 (list_elem_of_here _ _)). congruence.
Qed.

(** X16.  Whatever the order of its loop, [mapsEqual] returns [true]
    exactly when the two maps hold the same entries. *)
Theorem mapsEqual_decides_equality (it : iteration K V) (m1 m2 : gmap K V) :
  mapsEqual it m1 m2 = bool_decide (m1 = m2).
Proof.
  unfold mapsEqual.
  destruct (Z.of_nat (size m1) =? Z.of_nat (size m2)) eqn:Hsize; simpl.
  - apply Z.eqb_eq, Nat2Z.inj in Hsize.
    assert (Henum : ∀ k v, (k, v) ∈ enum it (plain m1) ↔ m1 !! k = Some v).
    { intros k v. rewrite (enum_perm it (plain m1)). unfold entries. simpl.
      by rewrite app_nil_r, elem_of_map_to_list. }
    destruct (mapsEqual_loop (enum it (plain m1)) m2) eqn:Hloop; symmetry.
    + apply bool_decide_eq_true. apply map_subseteq_size_eq; [|lia].
      apply map_subseteq_spec. intros k v Hk.
      apply (proj1 (mapsEqual_loop_true _ _) Hloop).
      by apply Henum.
    + apply bool_decide_eq_false. intros <-.
      assert (mapsEqual_loop (enum it (plain m1)) m1 = true); [|congruence].
      apply mapsEqual_loop_true. intros k v Hin.
      by apply Henum.
  - symmetry. apply bool_decide_eq_false. intros <-.
    apply Z.eqb_neq in Hsize. done.
Qed.
End test_helper_properties.

Section slice_properties.
Context {T : Type} `{EqDecision T}.

Lemma slicesEqual_loop_seq (s1 s2 : list T) n i :
  (i + n = length s1)%nat → length s1 = length s2 →
  slicesEqual_loop (seq i n) s1 s2 = Some (bool_decide (drop i s1 = drop i s2)).
Proof.
  intros Hin Hlen. revert i Hin.
  induction n as [|n IH]; intros i Hin; simpl.
  - rewrite !drop_ge by lia. by rewrite bool_decide_true.
  - destruct (lookup_lt_is_Some_2 s1 i) as [x Hx]; [lia|].
    destruct (lookup_lt_is_Some_2 s2 i) as [y Hy]; [lia|].
    rewrite Hx, Hy, (drop_S _ _ _ Hx), (drop_S _ _ _ Hy).
    destruct (bool_decide_reflect (x = y)) as [->|Hne]; simpl.
    + rewrite IH by lia. f_equal. apply bool_decide_ext.
      split; [by intros ->|by intros [=]].
    + f_equal. symmetry. apply bool_decide_eq_false. by intros [=].
Qed.

(** X17.  [slicesEqual] never indexes a slice out of its range, and returns
    [true] exactly when the two slices hold the same elements in the same
    order. *)
Theorem slicesEqual_decides_equality (s1 s2 : list T) :
  slicesEqual s1 s2 = Some (bool_decide (s1 = s2)).
Proof.
  unfold slicesEqual.
  destruct (Z.of_nat (length s1) =? Z.of_nat (length s2)) eqn:Hlen; simpl.
  - apply Z.eqb_eq, Nat2Z.inj in Hlen.
    by rewrite (slicesEqual_loop_seq s1 s2 (length s1) 0).
  - f_equal. symmetry. apply bool_decide_eq_false. intros <-.
    apply Z.eqb_neq in Hlen. done.
Qed.
End slice_properties.

(** ** The further properties on the store of the tests *)


Lemma Remove_reports_presence_witness :
  ∃ w', SyncMap.Remove "key1" two_keys
          = Returned (bool_decide (is_Some (current two_keys !! "key1"))) w' ∧
        ready w' ∧
        current w' = delete "key1" (current two_keys) ∧
        (current two_keys !! "key1" = None → w' = two_keys) ∧
        SyncMap.Load "key1" w' = Returned (zero_value, false) w' ∧
        SyncMap.Remove "key1" w' = Returned false w'.
Proof.
  apply (Remove_reports_presence "key1" two_keys). ready_by_computation.
Defined.

Lemma Len_counts_entries_witness :
  ∃ n v0 present w1 b w2,
    SyncMap.Len two_keys = Returned n two_keys ∧
    n = Z.of_nat (size (current two_keys)) ∧
    SyncMap.Load "key3" two_keys = Returned (v0, present) two_keys ∧
    SyncMap.Store "key3" 3 two_keys = Returned tt w1 ∧
    SyncMap.Len w1 = Returned (if present then n else n + 1) w1 ∧
    SyncMap.Remove "key3" two_keys = Returned b w2 ∧
    SyncMap.Len w2 = Returned (if present then n - 1 else n) w2.
Proof.
  apply (Len_counts_entries "key3" 3 two_keys). ready_by_computation.
Defined.

Lemma Store_overwrites_and_commutes_witness :
  ∃ w1 w2 w12,
    SyncMap.Store "key1" 10 two_keys = Returned tt w1 ∧
    SyncMap.Store "key1" 20 two_keys = Returned tt w2 ∧
    SyncMap.Store "key1" 20 w1 = Returned tt w2 ∧
    (∀ r, SyncMap.Load "key2" two_keys = Returned r two_keys →
          SyncMap.Load "key2" w1 = Returned r w1) ∧
    (SyncMap.Store "key1" 10 ;; SyncMap.Store "key2" 20) two_keys
      = Returned tt w12 ∧
    current w12 = <["key2" := 20]> (<["key1" := 10]> (current two_keys)) ∧
    (SyncMap.Store "key2" 20 ;; SyncMap.Store "key1" 10) two_keys
      = Returned tt w12.
Proof.
  destruct (Store_overwrites_and_commutes "key1" "key2" 10 20 two_keys)
    as (w1 & w2 & w12 & Hw1 & Hw2 & Hlast & _ & Hother & Hboth & Hcur & Hswap).
  - ready_by_computation.
  - discriminate.
  - exists w1, w2, w12.
    split; [exact Hw1|]. split; [exact Hw2|].
    split; [apply Hlast; reflexivity|]. split; [exact Hother|].
    split; [exact Hboth|]. split; [exact Hcur|].
    apply Hswap. left. reflexivity.
Defined.

Lemma Store_Load_Remove_restores_witness :
  (SyncMap.Store "key3" 3 ;;
   let* r := SyncMap.Load "key3" in
   let* removed := SyncMap.Remove "key3" in
   ret (r, removed)) two_keys = Returned ((3, true), true) two_keys.
Proof.
  apply (Store_Load_Remove_restores "key3" 3 two_keys).
  - ready_by_computation.
  - reflexivity.
  - vm_compute. reflexivity.
Defined.

Lemma LoadOrStore_is_Load_then_Store_if_absent_witness :
  SyncMap.LoadOrStore "key3" 3 two_keys =
  (let* (v0, ok) := SyncMap.Load "key3" in
   if ok then ret (v0, true)
   else SyncMap.Store "key3" 3 ;; ret (3, false)) two_keys.
Proof.
  apply (LoadOrStore_is_Load_then_Store_if_absent "key3" 3 two_keys).
  ready_by_computation.
Defined.

Lemma Range_counts_what_Len_returns_witness :
  ∃ n, SyncMap.Len two_keys = Returned n two_keys ∧
       SyncMap.Range listed_backwards count_calls 0 two_keys = Returned n two_keys.
Proof.
  apply (Range_counts_what_Len_returns listed_backwards two_keys).
  ready_by_computation.
Defined.

Lemma Map_and_Filter_ignore_the_iteration_order_witness :
  SyncMap.Map listed (λ _ v, v * 2) two_keys
    = SyncMap.Map listed_backwards (λ _ v, v * 2) two_keys ∧
  SyncMap.Filter listed (λ _ v, 2 <=? v) two_keys
    = SyncMap.Filter listed_backwards (λ _ v, 2 <=? v) two_keys.
Proof.
  destruct (Map_and_Filter_ignore_the_iteration_order
              listed listed_backwards (λ _ v, v * 2) (λ _ v, 2 <=? v) two_keys)
    as [Hsame _].
  - ready_by_computation.
  - apply Hsame. reflexivity.
Defined.

Lemma calling_the_store_from_a_callback_deadlocks_witness :
  SyncMap.DoLocked (λ _, public (mLen (K:=string) (V:=Z)) ;; ret tt) two_keys
    = Halted blocked_on_lock ∧
  SyncMap.DoLockedWithResult
    (λ _, public (mLen (K:=string) (V:=Z)) ;; ret (int_ 0)) two_keys
    = Halted blocked_on_lock ∧
  SyncMap.DoLocked (λ _, SyncMap.DoLocked (λ m, LockedMap.Store m "key3" 3)) two_keys
    = Halted blocked_on_lock.
Proof.
  apply (calling_the_store_from_a_callback_deadlocks
           mLen (λ m, LockedMap.Store m "key3" 3) (int_ 0) two_keys).
  reflexivity.
Defined.

Lemma zero_value_store_reads_but_does_not_write_witness :
  SyncMap.Load "key1" zero_SyncMap = Returned (zero_value, false) zero_SyncMap ∧
  SyncMap.LoadAndDelete "key1" zero_SyncMap
    = Returned (zero_value, false) zero_SyncMap ∧
  SyncMap.Remove "key1" zero_SyncMap = Returned false zero_SyncMap ∧
  SyncMap.Len zero_SyncMap = Returned 0 zero_SyncMap ∧
  SyncMap.Range listed (logged sum_all) ([], 0) zero_SyncMap
    = Returned ([], 0) zero_SyncMap ∧
  SyncMap.Store "key1" 1 zero_SyncMap
    = Panicked (RuntimeError assignment_to_entry_in_nil_map) zero_SyncMap ∧
  SyncMap.LoadOrStore "key1" 1 zero_SyncMap
    = Panicked (RuntimeError assignment_to_entry_in_nil_map) zero_SyncMap ∧
  ∃ w1 w2, SyncMap.Purge zero_SyncMap = Returned tt w1 ∧
           ready w1 ∧
           SyncMap.Store "key1" 1 w1 = Returned tt w2 ∧
           SyncMap.Load "key1" w2 = Returned (1, true) w2.
Proof.
  refine (zero_value_store_reads_but_does_not_write
            "key1" 1 listed sum_all 0 zero_SyncMap _ _); reflexivity.
Defined.

Lemma DoLocked_of_a_sequence_is_the_sequence_of_DoLocked_witness :
  SyncMap.DoLocked
    (run (then_ (Call (mStore "key3" 3) (λ _, Return tt))
                (Call (mRemove "key1") (λ _, PanicWith (string_ "boom")))))
    two_keys =
  (SyncMap.DoLocked (run (Call (mStore "key3" 3) (λ _, Return tt))) ;;
   SyncMap.DoLocked
     (run (Call (mRemove "key1") (λ _, PanicWith (string_ "boom"))))) two_keys.
Proof.
  apply (DoLocked_of_a_sequence_is_the_sequence_of_DoLocked
           (Call (mStore "key3" 3) (λ _, Return tt))
           (Call (mRemove "key1") (λ _, PanicWith (string_ "boom")))
           two_keys).
  reflexivity.
Defined.

Lemma readers_share_the_lock_and_writers_wait_witness :
  (SyncMap.Load "key1" two_readers = Returned (1, true) two_readers ∧
   SyncMap.DoLocked (λ m, LockedMap.Store m "key3" 3) two_readers
     = Halted blocked_on_lock) ∧
  SyncMap.Store "key3" 3 two_readers = Halted blocked_on_lock.
Proof.
  split.
  - refine (readers_share_the_lock_and_writers_wait
              (mLoad "key1") (λ m, LockedMap.Store m "key3" 3) two_readers _ _).
    + reflexivity.
    + vm_compute. lia.
  - refine (proj1 (readers_share_the_lock_and_writers_wait
                     (mStore "key3" 3) (λ m, LockedMap.Store m "key3" 3)
                     two_readers _ _)).
    + reflexivity.
    + vm_compute. lia.
Defined.

Lemma public_calls_act_as_on_a_plain_map_witness :
  ∃ w', history [Op (mStore "key3" 3); Op (mRemove "key1"); Op mLen;
                 Op (mLoadOrStore "key2" 9); Op mPurge; Op (mStore "key4" 4)]
          two_keys = Returned tt w' ∧
        ready w' ∧
        current w' =
          foldl (λ d o, effect_of o d) (current two_keys)
            [Op (mStore "key3" 3); Op (mRemove "key1"); Op mLen;
             Op (mLoadOrStore "key2" 9); Op mPurge; Op (mStore "key4" 4)].
Proof.
  apply (public_calls_act_as_on_a_plain_map
           [Op (mStore "key3" 3); Op (mRemove "key1"); Op mLen;
            Op (mLoadOrStore "key2" 9); Op mPurge; Op (mStore "key4" 4)]
           two_keys).
  ready_by_computation.
Defined.

Lemma maps_returned_are_independent_of_the_store_witness :
  (∃ t w', public (mStore "key1" 100) two_keys = Returned t w' ∧
           ∀ l, is_Some (heap two_keys !! l) → ref l ≠ Data (this two_keys) →
                heap w' !! l = heap two_keys !! l) ∧
  (∃ l w1 t w2, SyncMap.Map listed (λ _ v, v * 2) two_keys = Returned (ref l) w1 ∧
                public (mStore "key1" 100) w1 = Returned t w2 ∧
                heap w2 !! l = heap w1 !! l) ∧
  (∃ l w1 t w2, SyncMap.Filter listed (λ _ v, 2 <=? v) two_keys
                  = Returned (ref l) w1 ∧
                public (mStore "key1" 100) w1 = Returned t w2 ∧
                heap w2 !! l = heap w1 !! l).
Proof.
  apply (maps_returned_are_independent_of_the_store
           listed (λ _ v, v * 2) (λ _ v, 2 <=? v) (mStore "key1" 100) two_keys).
  ready_by_computation.
Defined.

Lemma keys_unequal_to_themselves_are_stored_but_never_found_witness :
  SyncMap.Load NaN float_store = Returned (zero_value, false) float_store ∧
  SyncMap.LoadAndDelete NaN float_store
    = Returned (zero_value, false) float_store ∧
  SyncMap.Remove NaN float_store = Returned false float_store ∧
  ∃ w1, SyncMap.Store NaN 1 float_store = Returned tt w1 ∧
        SyncMap.LoadOrStore NaN 1 float_store = Returned (1, false) w1 ∧
        ready w1 ∧
        entries (current w1) = entries (current float_store) ++ [(NaN, 1)] ∧
        SyncMap.Len w1
          = Returned (Z.of_nat (size (current float_store)) + 1) w1 ∧
        (∃ log, SyncMap.Range float_listed
                  (logged (λ _ _ (_ : unit), (tt, true))) ([], tt) w1
                  = Returned (log, tt) w1 ∧
                (NaN, 1) ∈ log.*1) ∧
        SyncMap.Load NaN w1 = Returned (zero_value, false) w1 ∧
        SyncMap.Remove NaN w1 = Returned false w1 ∧
        ∃ w2, SyncMap.Purge w1 = Returned tt w2 ∧ current w2 = ∅.
Proof.
  apply (keys_unequal_to_themselves_are_stored_but_never_found
           NaN 1 float_listed float_store).
  - ready_by_computation.
  - reflexivity.
Defined.

(** The helpers on the values of the tests. *)
Example mapsEqual_on_the_doubled_map :
  mapsEqual listed {[ "key2" := 4; "key3" := 6; "key4" := 8 ]}
                   ({[ "key4" := 8; "key3" := 6; "key2" := 4 ]} : gmap string Z)
    = true ∧
  mapsEqual listed {[ "key2" := 4; "key3" := 6 ]}
                   ({[ "key2" := 4; "key3" := 7 ]} : gmap string Z)
    = false ∧
  slicesEqual ["key2"; "key4"] ["key2"; "key4"] = Some true ∧
  slicesEqual [2; 4] [2; 5] = Some false.
Proof. vm_compute. done. Qed.
